(** * WireScope: the real-time log stream engine

    A shallow embedding of the TypeScript sources of the log pipeline
    (ingestion batching, bounded store, filtering, viewport projection,
    payload formatting, settings persistence) together with the properties
    the specification states about them.

    JavaScript arrays are lists, array lengths and indices are integers in
    [Z], strings are [string] (sequences of 8-bit code units), plain objects
    used as records of optional fields are [gmap string _]. *)

From Stdlib Require Import ZArith QArith Qround Qminmax String Ascii List Lia.
From stdpp Require Import base list strings gmap pretty.

Local Open Scope string_scope.
Local Open Scope list_scope.
Local Open Scope Z_scope.

(** ** src/types/wirescope.ts *)

Module Types.

Record LogLine := mkLogLine {
  when_iso : string;
  interval_ms : Z;
  dir : string;
  origin : string;
  text : string;
  raw : list Z;
  connId : string
}.

(** [type ViewMode = 'ascii' | 'hex'] *)
Inductive ViewMode := ViewAscii | ViewHex.

(** A received frame of the main connection with the given text. *)
Definition textFrame (t : string) : LogLine :=
  {| when_iso := "2026-01-01T00:00:00.000Z"; interval_ms := 0; dir := "RX";
     origin := "serial"; text := t; raw := []; connId := "main" |}.

End Types.
Export Types.

(** ** The JavaScript runtime functions the sources call *)

Module Js.

(** [Array.prototype.slice(start)]: a negative [start] counts from the end,
    and the start position is clamped into [0, length]. *)
Definition slice {A} (l : list A) (start : Z) : list A :=
  let len := Z.of_nat (length l) in
  let k := if start <? 0 then Z.max (len + start) 0 else Z.min start len in
  drop (Z.to_nat k) l.

(** A string as a list of code units and back. *)
Fixpoint chars (s : string) : list ascii :=
  match s with
  | EmptyString => []
  | String c s' => c :: chars s'
  end.

Fixpoint flatMapChars (f : ascii -> string) (s : string) : string :=
  match s with
  | EmptyString => EmptyString
  | String c s' => f c +:+ flatMapChars f s'
  end.

(** [String.prototype.includes(search)] *)
Fixpoint includes (s search : string) : bool :=
  String.prefix search s ||
  match s with
  | EmptyString => false
  | String _ s' => includes s' search
  end.

(** [String.prototype.replaceAll(pattern, replacement)] with a string
    pattern: the occurrences are found from left to right and do not
    overlap; [skip] counts the code units of the current occurrence that
    are still to be passed over. The empty pattern matches before every
    code unit and at the end. *)
Fixpoint replaceAllFrom (skip : nat) (s pattern replacement : string) : string :=
  match s with
  | EmptyString => EmptyString
  | String c s' =>
      match skip with
      | S k => replaceAllFrom k s' pattern replacement
      | O =>
          if String.prefix pattern s
          then replacement
               +:+ replaceAllFrom (String.length pattern - 1) s' pattern replacement
          else String c (replaceAllFrom 0 s' pattern replacement)
      end
  end.

Definition replaceAll (s pattern replacement : string) : string :=
  match pattern with
  | EmptyString =>
      replacement +:+ flatMapChars (fun c => String c replacement) s
  | _ => replaceAllFrom 0 s pattern replacement
  end.

(** [toUpperCase] and [toLowerCase] on the ASCII letters. *)
Definition upperChar (c : ascii) : ascii :=
  let n := nat_of_ascii c in
  if ((97 <=? n) && (n <=? 122))%nat then ascii_of_nat (n - 32) else c.

Definition lowerChar (c : ascii) : ascii :=
  let n := nat_of_ascii c in
  if ((65 <=? n) && (n <=? 90))%nat then ascii_of_nat (n + 32) else c.

Definition toUpperCase (s : string) : string :=
  flatMapChars (fun c => String (upperChar c) EmptyString) s.

Definition toLowerCase (s : string) : string :=
  flatMapChars (fun c => String (lowerChar c) EmptyString) s.

(** [String.prototype.padStart(targetLength, padString)]: the pad string is
    repeated and cut to the missing length. *)
Fixpoint repeatTo (n : nat) (pad cur : string) : string :=
  match n with
  | O => EmptyString
  | S k =>
      match cur with
      | EmptyString =>
          match pad with
          | EmptyString => EmptyString
          | String c rest => String c (repeatTo k pad rest)
          end
      | String c rest => String c (repeatTo k pad rest)
      end
  end.

Definition padStart (s : string) (targetLength : nat) (padString : string) :=
  repeatTo (targetLength - String.length s) padString padString +:+ s.

(** [Number.prototype.toString(16)] on an integer: lower-case digits, no
    leading zero, a minus sign for a negative number. *)
Definition hexDigit (d : Z) : ascii :=
  if d <? 10 then ascii_of_nat (Z.to_nat (48 + d))
  else ascii_of_nat (Z.to_nat (87 + d)).

Fixpoint hexDigits (fuel : nat) (n : Z) (acc : string) : string :=
  let acc := String (hexDigit (n mod 16)) acc in
  match fuel with
  | O => acc
  | S fuel' => if n / 16 =? 0 then acc else hexDigits fuel' (n / 16) acc
  end.

Definition toString16 (n : Z) : string :=
  let digits := hexDigits (Z.to_nat (Z.log2 (Z.abs n))) (Z.abs n) EmptyString in
  if n <? 0 then String "-" digits else digits.

(** [Math.round] on a rational: the nearest integer, a half going up. *)
Definition mathRound (x : Q) : Z := Qfloor (x + (1 # 2)).

(** [numbers.reduce((sum, value) => sum + value, 0)] *)
Definition sumOf (numbers : list Z) : Z :=
  fold_left (fun sum value => sum + value) numbers 0.

(** [Math.max(first, ...rest)] on integers. *)
Definition mathMax (first : Z) (rest : list Z) : Z := fold_left Z.max rest first.

(** [String.prototype.split(separator)] with a separator of one code unit:
    the pieces between the separators, empty pieces included; a string
    without the separator is the only piece. *)
Fixpoint splitOn (separator : ascii) (s : string) : list string :=
  match s with
  | EmptyString => [EmptyString]
  | String c s' =>
      if Ascii.eqb c separator then EmptyString :: splitOn separator s'
      else
        match splitOn separator s' with
        | piece :: pieces => String c piece :: pieces
        | [] => [String c EmptyString]
        end
  end.

Definition doubleQuote : string := String (ascii_of_nat 34) EmptyString.

(** [Array.prototype.join(separator)] on strings. *)
Definition join (separator : string) (parts : list string) : string :=
  String.concat separator parts.

(** [RegExp] belongs to the runtime. [newRegExp pattern flags] is [None]
    when the constructor throws a [SyntaxError]; [test] returns its verdict
    and the object with its updated [lastIndex]. *)
Class RegExpEngine := {
  RegExp : Type;
  newRegExp : string -> string -> option RegExp;
  regexpTest : RegExp -> string -> bool * RegExp
}.

End Js.

(** ** src/constants.ts *)

Definition MAX_LOG_LINES : Z := 6000.

Definition STANDARD_BAUD_RATES : list Z :=
  [150; 300; 600; 1200; 2400; 4800; 9600; 19200; 38400; 57600; 115200;
   230400; 460800; 921600].

(** ** src/hooks/useLogStream.ts: the bounded store *)

Module LogStream.

(** The updater that [appendLogs] hands to [setLogs]; an empty batch
    returns before [setLogs] is called, so the store is left as it is. *)
Definition appendLogs (previous incoming : list LogLine) : list LogLine :=
  if Z.of_nat (length incoming) =? 0 then previous
  else
    let total := Z.of_nat (length previous) + Z.of_nat (length incoming) in
    if total <=? MAX_LOG_LINES then previous ++ incoming
    else
      let overflow := total - MAX_LOG_LINES in
      if overflow >=? Z.of_nat (length previous)
      then Js.slice incoming (Z.of_nat (length incoming) - MAX_LOG_LINES)
      else Js.slice previous overflow ++ incoming.

(** The store after a sequence of batches has been appended one by one. *)
Definition appendAll (store : list LogLine) (batches : list (list LogLine)) :=
  fold_left appendLogs batches store.

(** The most recent [n] elements of a list, in their original order. *)
Definition lastn {A} (n : nat) (l : list A) : list A :=
  drop (length l - n)%nat l.

(** *** The hook's mutable state and the callbacks that change it

    [logs] is the React state, [pending] is [pendingRef.current],
    [flushTimer] tells whether [flushTimerRef.current] holds a timeout, and
    [disposed] is the flag of the effect's closure. *)
Record State := mkState {
  logs : list LogLine;
  pending : list LogLine;
  flushTimer : bool;
  disposed : bool
}.

Definition initial : State :=
  {| logs := []; pending := []; flushTimer := false; disposed := false |}.

(** [setLogs(updater)] *)
Definition setLogs (updater : list LogLine -> list LogLine) (s : State) :=
  {| logs := updater (logs s); pending := pending s;
     flushTimer := flushTimer s; disposed := disposed s |}.

(** The timeout callback. *)
Definition flushPending (s : State) : State :=
  let s := {| logs := logs s; pending := pending s;
              flushTimer := false; disposed := disposed s |} in
  if disposed s || (Z.of_nat (length (pending s)) =? 0) then s
  else
    let batch := pending s in
    let s := {| logs := logs s; pending := [];
                flushTimer := false; disposed := disposed s |} in
    setLogs (fun previous => appendLogs previous batch) s.

(** [scheduleFlush] arms the timeout unless one is already armed. *)
Definition scheduleFlush (s : State) : State :=
  if flushTimer s then s
  else {| logs := logs s; pending := pending s;
          flushTimer := true; disposed := disposed s |}.

(** The listener registered for the transport's ['log'] events. *)
Definition onLog (payload : LogLine) (s : State) : State :=
  if String.eqb (dir payload) "SYS" then s
  else
    scheduleFlush {| logs := logs s; pending := pending s ++ [payload];
                     flushTimer := flushTimer s; disposed := disposed s |}.

(** The effect's cleanup. The listener is removed only when the promise
    returned by [listen] resolves, so [onLog] may still run afterwards. *)
Definition cleanup (s : State) : State :=
  {| logs := logs s; pending := []; flushTimer := false; disposed := true |}.

Definition clear (s : State) : State :=
  setLogs (fun _ => [])
    {| logs := logs s; pending := [];
       flushTimer := flushTimer s; disposed := disposed s |}.

(** What can happen to a mounted hook, one callback at a time (the event
    loop runs each callback to completion). *)
Inductive Event :=
| EvLog (payload : LogLine)
| EvTimer
| EvClear
| EvUnmount.

(** A timeout callback runs only if a timeout is armed; the other events
    can always happen. *)
Definition step (s : State) (ev : Event) : State :=
  match ev with
  | EvLog payload => onLog payload s
  | EvTimer => if flushTimer s then flushPending s else s
  | EvClear => clear s
  | EvUnmount => cleanup s
  end.

Definition run (s : State) (evs : list Event) : State := fold_left step evs s.

Definition notSys (l : LogLine) : Prop := dir l <> "SYS".

(** Kinds of events, to describe a trace. *)
Definition isLogOrTimer (ev : Event) : bool :=
  match ev with
  | EvLog _ | EvTimer => true
  | _ => false
  end.

Definition isClear (ev : Event) : bool :=
  match ev with
  | EvClear => true
  | _ => false
  end.

(** The frames the transport delivered in a trace that pass the listener's
    direction check, in arrival order. *)
Definition delivered (evs : list Event) : list LogLine :=
  flat_map (fun ev =>
    match ev with
    | EvLog payload => if String.eqb (dir payload) "SYS" then [] else [payload]
    | _ => []
    end) evs.

End LogStream.

(** ** src/lib/format.ts *)

Module Format.

Definition crChar : ascii := "013"%char.
Definition lfChar : ascii := "010"%char.
Definition CR : string := String crChar EmptyString.
Definition LF : string := String lfChar EmptyString.
Definition CRLF : string := CR +:+ LF.

(** The markers of the table's payload column. *)
Definition CRLF_MARK : string := "⏎CRLF ".
Definition LF_MARK : string := "␊LF ".
Definition CR_MARK : string := "␍CR ".

Definition formatPayload (raw : list Z) (mode : ViewMode) (text : string) : string :=
  match mode with
  | ViewHex =>
      Js.join " "
        (map (fun byte => Js.padStart (Js.toUpperCase (Js.toString16 byte)) 2 "0")
             raw)
  | ViewAscii =>
      Js.replaceAll
        (Js.replaceAll (Js.replaceAll text CRLF CRLF_MARK) LF LF_MARK)
        CR CR_MARK
  end.

(** Reading a rendering back, as the specification words it: the string is
    split into its space-separated pairs of hexadecimal digits and every
    pair is read as one byte. *)
Definition hexValue (c : ascii) : option Z :=
  let n := Z.of_nat (nat_of_ascii c) in
  if (48 <=? n) && (n <=? 57) then Some (n - 48)
  else if (65 <=? n) && (n <=? 70) then Some (n - 55)
  else None.

Definition hexPair (hi lo : ascii) : option Z :=
  match hexValue hi, hexValue lo with
  | Some h, Some l => Some (16 * h + l)
  | _, _ => None
  end.

Fixpoint parseHexPairs (s : string) : option (list Z) :=
  match s with
  | EmptyString => Some []
  | String hi (String lo rest) =>
      match hexPair hi lo with
      | None => None
      | Some byte =>
          match rest with
          | EmptyString => Some [byte]
          | String sp rest' =>
              if Ascii.eqb sp " "
              then match parseHexPairs rest' with
                   | Some (b :: bytes) => Some (byte :: b :: bytes)
                   | _ => None
                   end
              else None
          end
      end
  | _ => None
  end.

(** What the hex branch of [formatPayload] maps over [raw]. *)
Definition renderByte (byte : Z) : string :=
  Js.padStart (Js.toUpperCase (Js.toString16 byte)) 2 "0".

(** The two upper-case digits of a byte. *)
Definition upperHexDigit (d : Z) : ascii :=
  if d <? 10 then ascii_of_nat (Z.to_nat (48 + d))
  else ascii_of_nat (Z.to_nat (55 + d)).

Definition twoHexDigits (byte : Z) : string :=
  String (upperHexDigit (byte / 16))
    (String (upperHexDigit (byte mod 16)) EmptyString).

(** [summarizeLogs] *)
Record Summary := mkSummary {
  total : Z;
  rx : Z;
  tx : Z;
  totalBytes : Z;
  avgGap : Z
}.

Definition countDir (d : string) (logs : list LogLine) : Z :=
  Z.of_nat (length (List.filter (fun line => String.eqb (dir line) d) logs)).

Definition summarizeLogs (logs : list LogLine) : Summary :=
  let rx := countDir "RX" logs in
  let tx := countDir "TX" logs in
  let totalBytes :=
    fold_left (fun sum line => sum + Z.of_nat (length (raw line))) logs 0 in
  let intervals := map interval_ms (Js.slice logs 1) in
  let avgGap :=
    if Z.of_nat (length intervals) =? 0 then 0
    else Js.mathRound (inject_Z (Js.sumOf intervals)
                       / inject_Z (Z.of_nat (length intervals))) in
  {| total := Z.of_nat (length logs); rx := rx; tx := tx;
     totalBytes := totalBytes; avgGap := avgGap |}.

End Format.

(** ** The single-file application (the source file with the inline
    settings, colour rules and macro presets) *)

Module Legacy.

(** A stand-in for the runtime's regular expressions, for closed examples:
    a pattern with an unclosed or unopened group is rejected, as the runtime
    rejects ["("] with "Unterminated group"; any other pattern is matched as
    literal text, which is what the runtime does for patterns made of
    letters and digits. [lastIndex] is not kept. *)
Module PlainRegExp.

Fixpoint groupsBalanced (depth : nat) (pattern : string) : bool :=
  match pattern with
  | EmptyString => Nat.eqb depth 0
  | String c rest =>
      if Ascii.eqb c "(" then groupsBalanced (S depth) rest
      else if Ascii.eqb c ")" then
        match depth with
        | O => false
        | S d => groupsBalanced d rest
        end
      else groupsBalanced depth rest
  end.

Record Literal := mkLiteral { source : string; ignoreCase : bool }.

Definition compile (pattern flags : string) : option Literal :=
  if groupsBalanced 0 pattern
  then Some {| source := pattern; ignoreCase := Js.includes flags "i" |}
  else None.

Definition test (re : Literal) (s : string) : bool * Literal :=
  (if ignoreCase re
   then Js.includes (Js.toLowerCase s) (Js.toLowerCase (source re))
   else Js.includes s (source re),
   re).

#[export] Instance engine : Js.RegExpEngine :=
  {| Js.RegExp := Literal; Js.newRegExp := compile; Js.regexpTest := test |}.

End PlainRegExp.

(** *** The filter of the application's [filtered] memo *)

Section Filter.
Context {engine : Js.RegExpEngine}.

Definition inScope (activeConnId : string) (l : LogLine) : bool :=
  String.eqb (connId l) activeConnId || String.eqb activeConnId "all".

(** [result.filter(l => re.test(l.text))], the regular expression object
    being the same one for every frame. *)
Fixpoint filterByTest (re : Js.RegExp) (frames : list LogLine) : list LogLine :=
  match frames with
  | [] => []
  | l :: rest =>
      let (ok, re') := Js.regexpTest re (text l) in
      if ok then l :: filterByTest re' rest else filterByTest re' rest
  end.

Definition filtered (logs : list LogLine) (filter : string) (useRegex : bool)
    (activeConnId : string) : list LogLine :=
  let result := List.filter (inScope activeConnId) logs in
  match filter with
  | EmptyString => result
  | _ =>
      if useRegex then
        match Js.newRegExp filter "i" with
        | Some re => filterByTest re result
        | None => result
        end
      else List.filter (fun l => Js.includes (text l) filter) result
  end.

(** *** renderLogs: which frames become elements

    A frame that fails [match] is rendered as [null]. A frame that passes
    becomes a [<pre>] element, represented here by its key, its frame and
    the text that was matched; the markup added afterwards ([showNL],
    [applyColorRules]) does not decide whether the element exists. *)
Record Element := mkElement {
  key : nat;
  line : LogLine;
  shown : string
}.

Definition fmtHex (raw : list Z) : string :=
  Js.join " "
    (map (fun b => Js.padStart (Js.toUpperCase (Js.toString16 b)) 2 "0") raw).

Definition compileFilter (filter : string) (useRegex : bool) : option Js.RegExp :=
  match filter with
  | EmptyString => None
  | _ => if useRegex then Js.newRegExp filter "gi" else None
  end.

(** [match], with the state of [filterRe] passed along. *)
Definition matchText (filter : string) (filterRe : option Js.RegExp) (s : string)
    : bool * option Js.RegExp :=
  match filter with
  | EmptyString => (true, filterRe)
  | _ =>
      match filterRe with
      | Some re => let (ok, re') := Js.regexpTest re s in (ok, Some re')
      | None => (Js.includes s filter, None)
      end
  end.

Definition shownText (view : ViewMode) (l : LogLine) : string :=
  match view with
  | ViewAscii => text l
  | ViewHex => fmtHex (raw l)
  end.

Fixpoint renderFrom (i : nat) (filterRe : option Js.RegExp)
    (frames : list LogLine) (view : ViewMode) (filter : string)
    : list (option Element) :=
  match frames with
  | [] => []
  | l :: rest =>
      let t := shownText view l in
      let (ok, filterRe') := matchText filter filterRe t in
      (if ok then Some {| key := i; line := l; shown := t |} else None)
      :: renderFrom (S i) filterRe' rest view filter
  end.

Definition renderLogs (frames : list LogLine) (view : ViewMode) (filter : string)
    (useRegex : bool) : list (option Element) :=
  renderFrom 0 (compileFilter filter useRegex) frames view filter.

End Filter.

(** The filter as the specification words it for plain text: the filter
    text occurs in the frame's text when letter case is ignored. *)
Definition occursIgnoringCase (filter s : string) : Prop :=
  exists before after,
    Js.toLowerCase s = before +:+ Js.toLowerCase filter +:+ after.

(** *** The markup helpers of renderLogs *)

Definition ltChar : ascii := "<"%char.
Definition gtChar : ascii := ">"%char.
Definition ampChar : ascii := "&"%char.

Definition escapeHtml (s : string) : string :=
  Js.replaceAll (Js.replaceAll (Js.replaceAll s "&" "&amp;") "<" "&lt;")
    ">" "&gt;".

Definition span (class content : string) : string :=
  "<span class=" +:+ Js.doubleQuote +:+ class +:+ Js.doubleQuote +:+ ">"
  +:+ content +:+ "</span>".

Definition SPAN_CRLF : string := span "nlcrlf" "⏎CRLF".
Definition SPAN_CR : string := span "nlcr" "␍CR".
Definition SPAN_LF : string := span "nllf" "␊LF".

Definition showNL (s : string) : string :=
  Js.replaceAll
    (Js.replaceAll (Js.replaceAll s Format.CRLF SPAN_CRLF) Format.CR SPAN_CR)
    Format.LF SPAN_LF.

(** *** useStats *)

Record Stats := mkStats {
  count : Z;
  avgInterval : Z;
  maxInterval : Z;
  totalBytes : Z;
  rxCount : Z;
  txCount : Z
}.

Definition useStats (logs : list LogLine) : Stats :=
  if Z.of_nat (length logs) =? 0 then
    {| count := 0; avgInterval := 0; maxInterval := 0; totalBytes := 0;
       rxCount := 0; txCount := 0 |}
  else
    let rxLogs := List.filter (fun l => String.eqb (dir l) "RX") logs in
    let txLogs := List.filter (fun l => String.eqb (dir l) "TX") logs in
    let intervals := map interval_ms (Js.slice logs 1) in
    let avgInterval :=
      if 0 <? Z.of_nat (length intervals)
      then (inject_Z (Js.sumOf intervals)
            / inject_Z (Z.of_nat (length intervals)))%Q
      else 0%Q in
    let maxInterval :=
      match intervals with
      | first :: rest => Js.mathMax first rest
      | [] => 0
      end in
    let totalBytes :=
      fold_left (fun sum l => sum + Z.of_nat (length (raw l))) logs 0 in
    {| count := Z.of_nat (length logs);
       avgInterval := Js.mathRound avgInterval;
       maxInterval := maxInterval;
       totalBytes := totalBytes;
       rxCount := Z.of_nat (length rxLogs);
       txCount := Z.of_nat (length txLogs) |}.

(** *** The text written by exportHexDump *)

Definition hexDumpText (logs : list LogLine) : string :=
  Js.join Format.LF (map (fun l => fmtHex (raw l)) logs).

(** Reading a dump back: one line per frame, each line a sequence of hex
    pairs. *)
Definition parseHexDump (dump : string) : list (option (list Z)) :=
  map Format.parseHexPairs (Js.splitOn Format.lfChar dump).

(** *** The connection tabs *)

Inductive TabType := SerialTab | SocketTab.

Record ConnectionTab := mkTab {
  tabId : string;
  tabType : TabType;
  tabLabel : string;
  tabActive : bool
}.

(** [connectionTabs] and [activeConnId], the two pieces of state that the
    tab handlers set. *)
Record Tabs := mkTabs {
  connectionTabs : list ConnectionTab;
  activeConnId : string
}.

Definition initialTabs : Tabs :=
  {| connectionTabs :=
       [{| tabId := "main"; tabType := SerialTab; tabLabel := "Main";
           tabActive := true |}];
     activeConnId := "main" |}.

(** The main tab and one socket tab, the main tab active. *)
Definition twoTabs : Tabs :=
  {| connectionTabs :=
       [{| tabId := "main"; tabType := SerialTab; tabLabel := "Main";
           tabActive := true |};
        {| tabId := "socket-1"; tabType := SocketTab; tabLabel := "SOCKET 1";
           tabActive := false |}];
     activeConnId := "main" |}.

(** How a handler ends: it returns, or it throws after the state updates
    it had already requested. *)
Inductive Handled :=
| Returned (tabs : Tabs)
| Threw (tabs : Tabs).

(** [switchConnectionTab] as called with the tab list [shown], the list of
    the render in which the handler was created. *)
Definition switchConnectionTab (shown : list ConnectionTab) (id : string) : Tabs :=
  {| connectionTabs :=
       map (fun t => {| tabId := tabId t; tabType := tabType t;
                        tabLabel := tabLabel t;
                        tabActive := String.eqb (tabId t) id |}) shown;
     activeConnId := id |}.

(** [closeConnectionTab]: the call of [switchConnectionTab] inside it sets
    [connectionTabs] after [setConnectionTabs(remaining)] did, from the list
    of the current render, so its value is the one that stays. *)
Definition closeConnectionTab (st : Tabs) (id : string) : Handled :=
  if Z.of_nat (length (connectionTabs st)) =? 1 then Returned st
  else
    let remaining :=
      List.filter (fun t => negb (String.eqb (tabId t) id)) (connectionTabs st) in
    let st' := {| connectionTabs := remaining; activeConnId := activeConnId st |} in
    if String.eqb (activeConnId st) id then
      match remaining with
      | first :: _ => Returned (switchConnectionTab (connectionTabs st) (tabId first))
      | [] => Threw st'
      end
    else Returned st'.

(** *** useLogFeed: the store of that application *)

Inductive FeedEvent :=
| FeedLog (payload : LogLine)
| FeedClear.

Definition feedStep (logs : list LogLine) (ev : FeedEvent) : list LogLine :=
  match ev with
  | FeedLog payload => logs ++ [payload]
  | FeedClear => []
  end.

Definition feedRun (logs : list LogLine) (evs : list FeedEvent) :=
  fold_left feedStep evs logs.

(** A connection lifecycle notice as the transport emits it. *)
Definition sysNotice : LogLine :=
  {| when_iso := "2026-01-01T00:00:00.000Z"; interval_ms := 0; dir := "SYS";
     origin := "serial"; text := "connected"; raw := []; connId := "main" |}.

End Legacy.

(** ** src/components/LogView.tsx *)

Module LogView.

Local Open Scope Q_scope.

Definition ROW_HEIGHT_PX : Z := 28.
Definition HEADER_HEIGHT_PX : Z := 30.
Definition OVERSCAN_ROWS : Z := 12.

(** [scrollTop] and [viewportHeight] are pixel measures and need not be
    whole numbers; they are rationals here. *)
Definition bodyHeight (viewportHeight : Q) : Q :=
  Qmax (viewportHeight - inject_Z HEADER_HEIGHT_PX)
               (inject_Z (ROW_HEIGHT_PX * 10)).

Definition visibleStart (scrollTop : Q) : Z :=
  Z.max 0 (Qfloor (scrollTop / inject_Z ROW_HEIGHT_PX) - OVERSCAN_ROWS).

Definition visibleEnd (totalRows : Z) (scrollTop viewportHeight : Q) : Z :=
  Z.min totalRows
    (Qceiling ((scrollTop + bodyHeight viewportHeight) / inject_Z ROW_HEIGHT_PX)
     + OVERSCAN_ROWS).

(** A materialized row. Its remaining columns (timestamp, direction, source,
    byte count, preview) are read off [rowLine]. *)
Record Row := mkRow {
  id : Z;
  index : Z;
  rowLine : LogLine
}.

(** The loop of the [visibleRows] memo: [index] runs from [visibleStart]
    while it is below [visibleEnd]; an index with no frame is skipped. *)
Definition visibleRows (logs : list LogLine) (scrollTop viewportHeight : Q)
    : list Row :=
  let totalRows := Z.of_nat (length logs) in
  let first := visibleStart scrollTop in
  let last := visibleEnd totalRows scrollTop viewportHeight in
  omap (fun index =>
          match logs !! Z.to_nat index with
          | Some line => Some {| id := (index + 1)%Z; index := index; rowLine := line |}
          | None => None
          end)
       (seqZ first (last - first)).

Definition topSpacerHeight (scrollTop : Q) : Z :=
  (visibleStart scrollTop * ROW_HEIGHT_PX)%Z.

Definition bottomSpacerHeight (totalRows : Z) (scrollTop viewportHeight : Q) : Z :=
  Z.max 0
    ((totalRows - visibleEnd totalRows scrollTop viewportHeight) * ROW_HEIGHT_PX)%Z.

(** The escapes of the detail pane: ['\\r\\n\n'], ['\\n\n'] and ['\\r']. *)
Definition DETAIL_CRLF : string := "\r\n" +:+ Format.LF.
Definition DETAIL_LF : string := "\n" +:+ Format.LF.
Definition DETAIL_CR : string := "\r".

Definition detailText (selected : option LogLine) : string :=
  match selected with
  | Some l =>
      Js.replaceAll
        (Js.replaceAll (Js.replaceAll (text l) Format.CRLF DETAIL_CRLF)
           Format.LF DETAIL_LF)
        Format.CR DETAIL_CR
  | None => EmptyString
  end.

End LogView.

(** The state of [LogView] that the user moves: the selection and the
    scroll position, with the two refs of the scroll handler. *)
Module LogViewState.

Record ViewState := mkViewState {
  selectedIndex : Z;
  scrollTop : Q;
  pendingScrollTop : Q;
  scrollRaf : bool
}.

(** The effect that runs when [logs.length] or [selectedIndex] changed. *)
Definition selectionEffect (logsLength : Z) (v : ViewState) : ViewState :=
  if logsLength =? 0 then
    {| selectedIndex := 0; scrollTop := 0;
       pendingScrollTop := pendingScrollTop v; scrollRaf := scrollRaf v |}
  else if selectedIndex v >=? logsLength then
    {| selectedIndex := logsLength - 1; scrollTop := scrollTop v;
       pendingScrollTop := pendingScrollTop v; scrollRaf := scrollRaf v |}
  else v.

(** [logs[selectedIndex]] *)
Definition selected (logs : list LogLine) (v : ViewState) : option LogLine :=
  if selectedIndex v <? 0 then None else logs !! Z.to_nat (selectedIndex v).

(** [onScroll]: the position is remembered, and an animation frame is
    requested unless one is already requested. *)
Definition onScroll (v : ViewState) (position : Q) : ViewState :=
  let v := {| selectedIndex := selectedIndex v; scrollTop := scrollTop v;
              pendingScrollTop := position; scrollRaf := scrollRaf v |} in
  if scrollRaf v then v
  else {| selectedIndex := selectedIndex v; scrollTop := scrollTop v;
          pendingScrollTop := pendingScrollTop v; scrollRaf := true |}.

(** The animation frame callback. *)
Definition onAnimationFrame (v : ViewState) : ViewState :=
  {| selectedIndex := selectedIndex v; scrollTop := pendingScrollTop v;
     pendingScrollTop := pendingScrollTop v; scrollRaf := false |}.

End LogViewState.

(** ** src/lib/settings.ts *)

Module Settings.

(** A JavaScript value as [JSON.parse] can return it; an object is the
    finite map of its own properties. *)
#[warnings="-register-all"]
Inductive json :=
| JNull
| JBool (b : bool)
| JNum (q : Q)
| JStr (s : string)
| JArr (items : list json)
| JObj (props : gmap string json).

(** How an evaluation ends: with a value, or with a thrown exception. *)
Inductive Completion (A : Type) :=
| Normal (a : A)
| Throw (exn : string).
Arguments Normal {A} a.
Arguments Throw {A} exn.

#[export] Instance Completion_bind : MBind Completion :=
  fun A B k c =>
    match c with
    | Normal a => k a
    | Throw e => Throw e
    end.

(** [try { body } catch { handler }] *)
Definition tryCatch {A} (body : Completion A) (handler : Completion A) : Completion A :=
  match body with
  | Normal a => Normal a
  | Throw _ => handler
  end.

(** [localStorage] and [JSON] belong to the runtime; every call may throw
    (storage disabled or full, malformed text, a value that cannot be
    serialized). The storage area is a map from keys to texts. *)
Record Runtime := mkRuntime {
  getItem : gmap string string -> string -> Completion (option string);
  setItem : gmap string string -> string -> string -> Completion (gmap string string);
  JSON_parse : string -> Completion json;
  JSON_stringify : json -> Completion string
}.

Definition SETTINGS_KEY : string := "wirescope_settings_v2".

Definition defaultSerial : gmap string json :=
  <["baud" := JNum 115200]> (<["dataBits" := JNum 8]> (<["parity" := JStr "none"]>
  (<["stopBits" := JNum 1]> (<["flow" := JStr "none"]> (<["append" := JStr "lf"]> ∅))))).

Definition defaultSocket : gmap string json :=
  <["host" := JStr "127.0.0.1"]> (<["port" := JNum 12345]>
  (<["proto" := JStr "tcp"]> (<["append" := JStr "lf"]> ∅))).

Definition defaultSettings : gmap string json :=
  <["mode" := JStr "serial"]> (<["viewMode" := JStr "ascii"]>
  (<["serial" := JObj defaultSerial]> (<["socket" := JObj defaultSocket]> ∅))).

(** The own enumerable properties that an object spread [...v] copies:
    those of an object, the indexed elements of an array or a string, and
    none for [null], a boolean or a number. *)
Definition indexed {A} (items : list A) : gmap string A :=
  list_to_map (imap (fun i x => (pretty i, x)) items).

Definition ownProps (v : json) : gmap string json :=
  match v with
  | JObj props => props
  | JArr items => indexed items
  | JStr s => indexed (map (fun c => JStr (String c EmptyString)) (Js.chars s))
  | _ => ∅
  end.

(** [{...a, ...b}]: the properties of [b] win. *)
Definition spread (a b : gmap string json) : gmap string json := b ∪ a.

(** [v.name] for the two names read by [loadSettings], which no prototype
    defines: the own property or [undefined] ([None]); reading a property
    of [null] throws. *)
Definition getProp (v : json) (name : string) : Completion (option json) :=
  match v with
  | JNull => Throw "TypeError"
  | _ => Normal (ownProps v !! name)
  end.

(** [v ?? {}] *)
Definition orEmptyObject (v : option json) : json :=
  match v with
  | None | Some JNull => JObj ∅
  | Some v => v
  end.

Definition loadSettings (rt : Runtime) (storage : gmap string string)
    : Completion json :=
  tryCatch
    (raw ← getItem rt storage SETTINGS_KEY;
     match raw with
     | None | Some EmptyString => Normal (JObj defaultSettings)
     | Some raw =>
         parsed ← JSON_parse rt raw;
         serial ← getProp parsed "serial";
         socket ← getProp parsed "socket";
         Normal (JObj
           (<["socket" := JObj (spread defaultSocket (ownProps (orEmptyObject socket)))]>
           (<["serial" := JObj (spread defaultSerial (ownProps (orEmptyObject serial)))]>
           (spread defaultSettings (ownProps parsed)))))
     end)
    (Normal (JObj defaultSettings)).

(** [saveSettings] returns nothing; what it leaves behind is the storage
    area, unchanged when the write did not happen. *)
Definition saveSettings (rt : Runtime) (storage : gmap string string)
    (settings : json) : Completion (gmap string string) :=
  tryCatch
    (serialized ← JSON_stringify rt settings;
     setItem rt storage SETTINGS_KEY serialized)
    (Normal storage).

(** The stored record: the properties of the value that the stored text
    parses to, none if there is no such text or it does not parse. *)
Definition storedRecord (rt : Runtime) (storage : gmap string string)
    : gmap string json :=
  match getItem rt storage SETTINGS_KEY with
  | Normal (Some raw) =>
      match JSON_parse rt raw with
      | Normal parsed => ownProps parsed
      | Throw _ => ∅
      end
  | _ => ∅
  end.

(** The fields of a nested record of the stored record. *)
Definition storedNested (rt : Runtime) (storage : gmap string string)
    (name : string) : gmap string json :=
  ownProps (orEmptyObject (storedRecord rt storage !! name)).

(** [result] has every field of [defaults], and every field that [stored]
    lacks has its default value in [result]. *)
Definition mergedOver (defaults stored result : gmap string json) : Prop :=
  dom defaults ⊆ dom result /\
  forall name, stored !! name = None -> result !! name = defaults !! name.

(** A runtime for closed examples: the storage area is read and written as
    it is, writing fails when [quota] is exceeded, and [JSON.parse] knows
    the one text [partialText]. *)
Definition quote : string := String (ascii_of_nat 34) EmptyString.

Definition partialText : string :=
  "{" +:+ quote +:+ "serial" +:+ quote +:+ ":{" +:+ quote +:+ "baud" +:+ quote
  +:+ ":9600}}".

Definition partialValue : json :=
  JObj (<["serial" := JObj (<["baud" := JNum 9600]> ∅)]> ∅).

Definition exampleRuntime (quota : nat) : Runtime :=
  {| getItem := fun storage k => Normal (storage !! k);
     setItem := fun storage k v =>
       if (String.length v <=? quota)%nat then Normal (<[k := v]> storage)
       else Throw "QuotaExceededError";
     JSON_parse := fun raw =>
       if String.eqb raw partialText then Normal partialValue
       else Throw "SyntaxError";
     JSON_stringify := fun _ => Normal partialText |}.

(** A runtime whose storage area keeps what it is given and whose [JSON]
    writes every value as [text] and reads [text] back as [value]. *)
Definition memoryRuntime (text : string) (value : json) : Runtime :=
  {| getItem := fun storage k => Normal (storage !! k);
     setItem := fun storage k v => Normal (<[k := v]> storage);
     JSON_parse := fun raw =>
       if String.eqb raw text then Normal value else Throw "SyntaxError";
     JSON_stringify := fun _ => Normal text |}.

(** A complete settings record that differs from the defaults: socket
    mode, hex view and a serial line at 9600 baud with even parity. *)
Definition customSerial : gmap string json :=
  <["baud" := JNum 9600]> (<["parity" := JStr "even"]> defaultSerial).

Definition customSettings : gmap string json :=
  <["mode" := JStr "socket"]> (<["viewMode" := JStr "hex"]>
  (<["serial" := JObj customSerial]> defaultSettings)).

End Settings.

(** ** The settings of the single-file application *)

Module LegacySettings.
Import Settings.

Definition SETTINGS_KEY : string := "wirescope_settings".

Definition defaultSettings : gmap string json :=
  <["viewMode" := JStr "ascii"]> (<["autoscroll" := JBool true]>
  (<["filter" := JStr ""]> (<["useRegex" := JBool false]>
  (<["serialBaud" := JNum 115200]> (<["serialDataBits" := JNum 8]>
  (<["serialParity" := JStr "none"]> (<["serialStopBits" := JNum 1]>
  (<["serialFlow" := JStr "none"]> (<["serialAppend" := JStr "lf"]>
  (<["socketHost" := JStr "127.0.0.1"]> (<["socketPort" := JNum 12345]>
  (<["socketProto" := JStr "tcp"]> (<["socketAppend" := JStr "lf"]>
  (<["colorRules" := JArr []]> (<["macroGroups" := JArr []]> ∅))))))))))))))).

(** [loadSettings]: the defaults overridden by the stored record; the
    defaults alone when nothing is stored or anything throws. *)
Definition loadSettings (rt : Runtime) (storage : gmap string string)
    : gmap string json :=
  match
    (saved ← getItem rt storage SETTINGS_KEY;
     match saved with
     | None | Some EmptyString => Normal None
     | Some saved =>
         parsed ← JSON_parse rt saved;
         Normal (Some (spread defaultSettings (ownProps parsed)))
     end)
  with
  | Normal (Some settings) => settings
  | _ => defaultSettings
  end.

(** [saveSettings(settings)]: the loaded settings overridden by the given
    fields are written back; the storage area is returned, unchanged when
    anything throws. *)
Definition saveSettings (rt : Runtime) (storage : gmap string string)
    (settings : gmap string json) : gmap string string :=
  let current := loadSettings rt storage in
  let updated := spread current settings in
  match
    (serialized ← JSON_stringify rt (JObj updated);
     setItem rt storage SETTINGS_KEY serialized)
  with
  | Normal storage' => storage'
  | Throw _ => storage
  end.

(** The stored record: the properties of the value that the stored text
    parses to; none when nothing or the empty text is stored, or when
    reading or parsing throws. *)
Definition storedRecord (rt : Runtime) (storage : gmap string string)
    : gmap string json :=
  match getItem rt storage SETTINGS_KEY with
  | Normal (Some (String c rest)) =>
      match JSON_parse rt (String c rest) with
      | Normal parsed => ownProps parsed
      | Throw _ => ∅
      end
  | _ => ∅
  end.

End LegacySettings.

(** ** src/components/SerialPanel.tsx *)

Module SerialPanel.

Definition spaceChar : ascii := " "%char.

(** [raw.split(' ')[0] ?? raw] *)
Definition parsePortName (raw : string) : string :=
  match Js.splitOn " " raw with
  | name :: _ => name
  | [] => raw
  end.

(** The effect on [filteredPorts] and [selectedPort]: the value that
    [selectedPort] has after it. *)
Definition portEffect (filteredPorts : list string) (selectedPort : string)
    : string :=
  match filteredPorts with
  | [] => EmptyString
  | first :: _ =>
      let stillExists :=
        existsb (fun port => String.eqb (parsePortName port) selectedPort)
                filteredPorts in
      if stillExists then selectedPort else parsePortName first
  end.

Record SerialConfig := mkSerialConfig {
  baud : Z;
  dataBits : Z;
  parity : string;
  stopBits : Z;
  flow : string;
  append : string
}.

(** The effect on [config]: the configuration that [onConfigChange] is
    given, or the configuration as it is when the handler is not called. *)
Definition baudEffect (config : SerialConfig) : SerialConfig :=
  if existsb (Z.eqb (baud config)) STANDARD_BAUD_RATES then config
  else {| baud := 115200; dataBits := dataBits config; parity := parity config;
          stopBits := stopBits config; flow := flow config;
          append := append config |}.

End SerialPanel.

(** * Properties of the bounded store *)

Section BoundedStore.
Import LogStream.

Lemma MAX_LOG_LINES_nonneg : 0 <= MAX_LOG_LINES.
Proof. unfold MAX_LOG_LINES; lia. Qed.

Lemma length_lastn {A} n (l : list A) :
  length (lastn n l) = Nat.min n (length l).
Proof. unfold lastn. rewrite length_drop. lia. Qed.

Lemma lastn_all {A} n (l : list A) : (length l <= n)%nat -> lastn n l = l.
Proof.
  intros H. unfold lastn.
  replace (length l - n)%nat with 0%nat by lia. reflexivity.
Qed.

Lemma lastn_app_long {A} n (l1 l2 : list A) :
  (n <= length l2)%nat -> lastn n (l1 ++ l2) = lastn n l2.
Proof.
  intros H. unfold lastn. rewrite length_app.
  replace (length l1 + length l2 - n)%nat
    with (length l1 + (length l2 - n))%nat by lia.
  apply drop_app_add.
Qed.

Lemma lastn_app_short {A} n (l1 l2 : list A) :
  (length l2 <= n)%nat -> lastn n (l1 ++ l2) = lastn (n - length l2) l1 ++ l2.
Proof.
  intros H. unfold lastn. rewrite length_app, drop_app.
  replace (length l1 + length l2 - n - length l1)%nat with 0%nat by lia.
  replace (length l1 + length l2 - n)%nat
    with (length l1 - (n - length l2))%nat by lia.
  reflexivity.
Qed.

(** Only the last [n] elements of what is already stored can survive. *)
Lemma lastn_absorb {A} n (l1 l2 : list A) :
  lastn n (lastn n l1 ++ l2) = lastn n (l1 ++ l2).
Proof.
  destruct (Nat.le_gt_cases n (length l2)) as [Hle | Hgt].
  - now rewrite !lastn_app_long.
  - rewrite !lastn_app_short by lia. f_equal.
    unfold lastn at 1 2. rewrite drop_drop; unfold lastn.
    rewrite length_drop. f_equal. lia.
Qed.

Lemma lastn_suffix {A} n (l : list A) : take (length l - n) l ++ lastn n l = l.
Proof. apply take_drop. Qed.

(** A non-empty batch leaves exactly the newest [MAX_LOG_LINES] frames. *)
Lemma appendLogs_lastn previous incoming :
  incoming <> [] ->
  appendLogs previous incoming
  = lastn (Z.to_nat MAX_LOG_LINES) (previous ++ incoming).
Proof.
  intros Hne. pose proof MAX_LOG_LINES_nonneg as Hmax.
  assert (0 < length incoming)%nat as Hlen
    by (destruct incoming; [congruence | simpl; lia]).
  unfold appendLogs, Js.slice.
  destruct (Z.eqb_spec (Z.of_nat (length incoming)) 0) as [E | _]; [lia |].
  destruct (Z.leb_spec (Z.of_nat (length previous) + Z.of_nat (length incoming))
              MAX_LOG_LINES) as [Hfit | Hover].
  - symmetry. apply lastn_all. rewrite length_app. lia.
  - destruct (Z.geb_spec
                (Z.of_nat (length previous) + Z.of_nat (length incoming)
                 - MAX_LOG_LINES) (Z.of_nat (length previous))) as [Hall | Hsome].
    + destruct (Z.ltb_spec (Z.of_nat (length incoming) - MAX_LOG_LINES) 0);
        [lia |].
      rewrite lastn_app_long by lia. unfold lastn. f_equal. lia.
    + destruct (Z.ltb_spec
                  (Z.of_nat (length previous) + Z.of_nat (length incoming)
                   - MAX_LOG_LINES) 0); [lia |].
      rewrite lastn_app_short by lia. f_equal. unfold lastn. f_equal. lia.
Qed.

Lemma appendLogs_nil previous : appendLogs previous [] = previous.
Proof. reflexivity. Qed.

Lemma appendLogs_length previous incoming :
  Z.of_nat (length previous) <= MAX_LOG_LINES ->
  Z.of_nat (length (appendLogs previous incoming)) <= MAX_LOG_LINES.
Proof.
  intros H. destruct incoming as [| x incoming]; [assumption |].
  rewrite appendLogs_lastn by discriminate. rewrite length_lastn. lia.
Qed.

(** From a store within capacity, every append is "keep the newest". *)
Lemma appendLogs_capped previous incoming :
  Z.of_nat (length previous) <= MAX_LOG_LINES ->
  appendLogs previous incoming
  = lastn (Z.to_nat MAX_LOG_LINES) (previous ++ incoming).
Proof.
  intros H. destruct incoming as [| x incoming].
  - rewrite appendLogs_nil, app_nil_r. symmetry. apply lastn_all. lia.
  - apply appendLogs_lastn. discriminate.
Qed.

Lemma appendAll_capped batches : forall store,
  Z.of_nat (length store) <= MAX_LOG_LINES ->
  appendAll store batches
  = lastn (Z.to_nat MAX_LOG_LINES) (store ++ concat batches).
Proof.
  induction batches as [| b batches IH]; intros store Hcap; simpl.
  - rewrite app_nil_r. symmetry. apply lastn_all. lia.
  - unfold appendAll in *; simpl. rewrite IH by now apply appendLogs_length.
    rewrite appendLogs_capped by assumption.
    rewrite lastn_absorb. now rewrite app_assoc.
Qed.

(** Batch by batch or all at once: the same store, from any starting store. *)
Lemma appendAll_concat batches : forall store,
  appendAll store batches = appendLogs store (concat batches).
Proof.
  induction batches as [| b batches IH]; intros store; [reflexivity |].
  destruct b as [| x b].
  - apply IH.
  - change (appendAll store ((x :: b) :: batches))
      with (appendAll (appendLogs store (x :: b)) batches).
    rewrite appendAll_capped.
    + rewrite !appendLogs_lastn by discriminate.
      rewrite lastn_absorb. simpl. now rewrite <- !app_assoc.
    + rewrite appendLogs_lastn by discriminate. rewrite length_lastn.
      pose proof MAX_LOG_LINES_nonneg. lia.
Qed.

(** A full store that receives two frames gives up its two oldest. *)
Example appendLogs_evicts_oldest :
  appendLogs (textFrame "first" :: textFrame "second"
                :: replicate (Z.to_nat 5998) (textFrame "old"))
             [textFrame "new"; textFrame "newest"]
  = replicate (Z.to_nat 5998) (textFrame "old") ++ [textFrame "new"; textFrame "newest"].
Proof. vm_compute. reflexivity. Qed.

(** A batch larger than the store's capacity keeps only its own tail. *)
Example appendLogs_oversized_batch :
  appendLogs [textFrame "stored"]
             (textFrame "lost" :: replicate (Z.to_nat 6000) (textFrame "kept"))
  = replicate (Z.to_nat 6000) (textFrame "kept").
Proof. vm_compute. reflexivity. Qed.

(** C1. Starting from the empty store, after each append of any sequence of
    batches (here: after the first [k] of them) the store holds at most
    [MAX_LOG_LINES] = 6000 frames, and it holds exactly the most recent
    [min(totalAppended, 6000)] of the frames appended so far, in arrival
    order. *)
Theorem store_bounded_most_recent (batches : list (list LogLine)) (k : nat) :
  let appended := concat (take k batches) in
  let store := appendAll [] (take k batches) in
  Z.of_nat (length store) <= MAX_LOG_LINES /\
  Z.of_nat (length store)
    = Z.min (Z.of_nat (length appended)) MAX_LOG_LINES /\
  store
    = lastn (Z.to_nat (Z.min (Z.of_nat (length appended)) MAX_LOG_LINES))
        appended.
Proof.
  intros appended store. pose proof MAX_LOG_LINES_nonneg as Hmax.
  assert (store = lastn (Z.to_nat MAX_LOG_LINES) appended) as Hstore.
  { subst store appended. rewrite appendAll_capped; [reflexivity | simpl; lia]. }
  assert (Z.of_nat (length store)
          = Z.min (Z.of_nat (length appended)) MAX_LOG_LINES) as Hlen.
  { rewrite Hstore, length_lastn. lia. }
  split; [lia |]. split; [exact Hlen |].
  rewrite Hstore. unfold lastn. f_equal. lia.
Qed.

(** C2. Appending the batches one after another gives the same store as one
    append of their concatenation, from any store; and what is kept is a
    suffix of the arrival sequence, so nothing is reordered or duplicated. *)
Theorem batching_is_concatenation
    (store : list LogLine) (batches : list (list LogLine)) :
  appendAll store batches = appendLogs store (concat batches) /\
  exists evicted,
    store ++ concat batches = evicted ++ appendAll store batches.
Proof.
  split; [apply appendAll_concat |].
  rewrite appendAll_concat.
  destruct (concat batches) as [| x incoming] eqn:E.
  - exists []. now rewrite appendLogs_nil, app_nil_r.
  - rewrite appendLogs_lastn by discriminate.
    eexists. symmetry. apply lastn_suffix.
Qed.

End BoundedStore.

(** * Properties of the ingestion batcher *)

Section Ingestion.
Import LogStream.

Lemma run_app s evs1 evs2 : run s (evs1 ++ evs2) = run (run s evs1) evs2.
Proof. apply fold_left_app. Qed.

Lemma run_snoc s evs ev : run s (evs ++ [ev]) = step (run s evs) ev.
Proof. now rewrite run_app. Qed.

Lemma delivered_snoc evs ev : delivered (evs ++ [ev]) = delivered evs ++ delivered [ev].
Proof. unfold delivered. now rewrite flat_map_app. Qed.

Lemma delivered_notSys evs : Forall notSys (delivered evs).
Proof.
  induction evs as [| ev evs IH]; simpl; [constructor |].
  apply Forall_app; split; [| exact IH].
  destruct ev as [payload | | |]; try constructor.
  destruct (String.eqb_spec (dir payload) "SYS"); repeat constructor.
  assumption.
Qed.

Lemma appendLogs_Forall (P : LogLine -> Prop) previous incoming :
  Forall P previous -> Forall P incoming -> Forall P (appendLogs previous incoming).
Proof.
  intros Hp Hi. destruct incoming as [| x incoming]; [exact Hp |].
  rewrite appendLogs_lastn by discriminate.
  unfold lastn. apply Forall_drop, Forall_app. now split.
Qed.

(** Neither the store nor the pending list ever holds a frame the listener
    rejects. *)
Lemma step_notSys s ev :
  Forall notSys (logs s) -> Forall notSys (pending s) ->
  Forall notSys (logs (step s ev)) /\ Forall notSys (pending (step s ev)).
Proof.
  intros Hl Hp. destruct ev as [payload | | |]; simpl.
  - unfold onLog. destruct (String.eqb_spec (dir payload) "SYS") as [E | NE];
      [now split |].
    unfold scheduleFlush; simpl. destruct (flushTimer s); simpl;
      (split; [assumption | apply Forall_app; split; [assumption |]]);
      repeat constructor; exact NE.
  - destruct (flushTimer s); [| now split].
    unfold flushPending; simpl.
    destruct (disposed s || (Z.of_nat (length (pending s)) =? 0))%bool; simpl.
    + now split.
    + split; [now apply appendLogs_Forall | constructor].
  - split; constructor.
  - split; [assumption | constructor].
Qed.

Lemma run_notSys evs : forall s,
  Forall notSys (logs s) -> Forall notSys (pending s) ->
  Forall notSys (logs (run s evs)) /\ Forall notSys (pending (run s evs)).
Proof.
  induction evs as [| ev evs IH]; intros s Hl Hp; [now split |].
  simpl. destruct (step_notSys s ev Hl Hp). now apply IH.
Qed.

(** Two frames and a notice arrive, the timeout fires, a third frame
    arrives and the user clears before the next timeout. *)
Example stream_trace :
  let s := run initial [EvLog (textFrame "a"); EvLog Legacy.sysNotice;
                        EvLog (textFrame "b"); EvTimer; EvLog (textFrame "c")] in
  logs s = [textFrame "a"; textFrame "b"] /\
  pending s = [textFrame "c"] /\
  flushTimer s = true /\
  logs (run s [EvClear; EvTimer]) = [].
Proof. repeat split. Qed.

(** After a clear, the store is always a contiguous stretch of the frames
    delivered since; while the hook is mounted, what follows that stretch
    is the pending list. *)
Lemma run_after_clear s evs :
  exists evicted later,
    delivered evs = evicted ++ logs (run (clear s) evs) ++ later /\
    (disposed (run (clear s) evs) = false ->
     later = pending (run (clear s) evs)).
Proof.
  induction evs as [| ev evs IH] using rev_ind.
  - exists [], []. simpl. now split.
  - destruct IH as (evicted & later & Heq & Hpend).
    rewrite run_snoc, delivered_snoc, Heq.
    set (s' := run (clear s) evs) in *.
    destruct ev as [payload | | |]; simpl.
    + unfold onLog. destruct (String.eqb (dir payload) "SYS").
      * exists evicted, later. now rewrite app_nil_r.
      * exists evicted, (later ++ [payload]).
        unfold scheduleFlush; simpl. destruct (flushTimer s'); simpl;
          (split; [now rewrite <- !app_assoc | intros Hd; now rewrite Hpend]).
    + rewrite app_nil_r. destruct (flushTimer s'); [| now exists evicted, later].
      unfold flushPending; simpl.
      destruct (disposed s') eqn:Hd; simpl; [now exists evicted, later |].
      destruct (Z.eqb_spec (Z.of_nat (length (pending s'))) 0) as [E | NE]; simpl.
      * exists evicted, later. split; [reflexivity |]. intros _. now apply Hpend.
      * rewrite Hpend by reflexivity.
        rewrite appendLogs_lastn by (destruct (pending s'); simpl in *; [lia | discriminate]).
        exists (evicted ++ take (length (logs s' ++ pending s')
                                 - Z.to_nat MAX_LOG_LINES)
                             (logs s' ++ pending s')), [].
        split; [| reflexivity].
        rewrite app_nil_r, <- app_assoc. f_equal. now rewrite lastn_suffix.
    + exists (evicted ++ logs s' ++ later), [].
      split; [now rewrite !app_nil_r | reflexivity].
    + exists evicted, later. split; [now rewrite app_nil_r | discriminate].
Qed.

(** C6, for the hook with the pending list. For every sequence of transport
    events, timer callbacks, clears and unmounts, no frame whose direction is
    "SYS" is in the store or in the pending list of [useLogStream]: the
    listener returns before pushing it. The store of the single-file
    application, [useLogFeed], has no pending list and no direction check and
    holds every payload it was sent, in order. *)
Theorem sys_frames_never_stored (evs : list Event) (payloads : list LogLine) :
  Forall notSys (logs (run initial evs)) /\
  Forall notSys (pending (run initial evs)) /\
  Legacy.feedRun [] (map Legacy.FeedLog payloads) = payloads.
Proof.
  destruct (run_notSys evs initial (Forall_nil_2 _) (Forall_nil_2 _)) as [Hl Hp].
  split; [exact Hl |]. split; [exact Hp |].
  unfold Legacy.feedRun.
  enough (forall acc, fold_left Legacy.feedStep (map Legacy.FeedLog payloads) acc
                      = acc ++ payloads) as H by apply (H []).
  induction payloads as [| p payloads IH]; intros acc; simpl.
  - now rewrite app_nil_r.
  - rewrite IH, <- app_assoc. reflexivity.
Qed.

(** C6 as stated fails on [useLogFeed]: a "SYS" notice sent by the transport
    is in the store right after its event. *)
Lemma legacy_feed_stores_sys :
  ~ Forall notSys (Legacy.feedRun [] [Legacy.FeedLog Legacy.sysNotice]).
Proof.
  intros H. apply Forall_inv in H. apply H. reflexivity.
Qed.

(** C10. Whatever the hook held when [clear] ran (frames still pending, a
    timeout armed or not), [clear] leaves the store and the pending list
    empty, a timeout that fires next appends nothing, and after any later
    events the store is a contiguous stretch of the frames delivered after
    the clear: no frame received before it comes back. *)
Theorem cleared_frames_never_return (s : State) (evs : list Event) :
  logs (clear s) = [] /\
  pending (clear s) = [] /\
  logs (step (clear s) EvTimer) = [] /\
  exists evicted later,
    delivered evs = evicted ++ logs (run (clear s) evs) ++ later.
Proof.
  split; [reflexivity |]. split; [reflexivity |]. split.
  - simpl. destruct (flushTimer s); [| reflexivity].
    unfold flushPending; simpl. now destruct (disposed s).
  - destruct (run_after_clear s evs) as (evicted & later & Heq & _).
    now exists evicted, later.
Qed.

End Ingestion.

(** * Properties of the filter *)

Section FilterProperties.
Import Legacy.

Lemma prefix_app (p s : string) :
  String.prefix p s = true <-> exists rest, s = p +:+ rest.
Proof.
  revert s. induction p as [| c p IH]; intros s; simpl.
  - destruct s; split; eauto.
  - destruct s as [| d s]; [split; [discriminate | intros [? ?]; discriminate] |].
    simpl. destruct (ascii_dec c d) as [-> | NE].
    + rewrite IH. split; intros [rest H]; exists rest; [now rewrite H | now injection H].
    + split; [discriminate | intros [rest H]; injection H; congruence].
Qed.

(** [includes] is the exact occurrence of the search text. *)
Lemma includes_occurs (s search : string) :
  Js.includes s search = true <->
  exists before after, s = before +:+ search +:+ after.
Proof.
  induction s as [| c s IH]; cbn [Js.includes].
  - rewrite orb_false_r, prefix_app. split.
    + intros [rest H]. now exists EmptyString, rest.
    + intros (before & after & H). destruct before; [now exists after |].
      discriminate.
  - rewrite orb_true_iff, prefix_app, IH. split.
    + intros [[rest H] | (before & after & H)].
      * now exists EmptyString, rest.
      * exists (String c before), after. simpl. now rewrite H.
    + intros (before & after & H). destruct before as [| d before].
      * left. now exists after.
      * right. exists before, after. simpl in H. now injection H.
Qed.

Lemma filter_filter {A} (P Q : A -> bool) (l : list A) :
  List.filter Q (List.filter P l) = List.filter (fun x => P x && Q x) l.
Proof.
  induction l as [| x l IH]; simpl; [reflexivity |].
  destruct (P x); simpl; [destruct (Q x) |]; now rewrite IH.
Qed.

Context {engine : Js.RegExpEngine}.

(** Without a compiled expression, [renderLogs] decides frame by frame. *)
Lemma renderFrom_plain (filter : string) (view : ViewMode) frames : forall i,
  filter <> EmptyString ->
  renderFrom i None frames view filter
  = imap (fun k l =>
            if Js.includes (shownText view l) filter
            then Some {| key := i + k; line := l; shown := shownText view l |}
            else None) frames.
Proof.
  induction frames as [| l frames IH]; intros i Hne; [reflexivity |].
  simpl. destruct filter as [| c rest]; [congruence |]. simpl.
  rewrite Nat.add_0_r. f_equal. rewrite IH by assumption.
  apply imap_ext. intros k x _. simpl. now rewrite Nat.add_succ_r.
Qed.

(** The [filtered] memo treats a pattern that does not compile as no filter
    at all. *)
Lemma filtered_invalid_regex_inert logs (filter scope : string) :
  filter <> EmptyString ->
  Js.newRegExp filter "i" = None ->
  filtered logs filter true scope = List.filter (inScope scope) logs.
Proof.
  intros Hne Hbad. unfold filtered.
  destruct filter; [congruence |]. now rewrite Hbad.
Qed.

(** C4, where the code departs from it. When the filter text does not
    compile as a regular expression, the [filtered] memo keeps a frame of
    the active connection, but [renderLogs], which renders that memo, falls
    back to the substring test: a frame whose shown text does not contain
    the pattern literally is rendered as [null]. *)
Theorem renderLogs_invalid_regex_drops_frame
    (l : LogLine) (view : ViewMode) (filter : string) :
  filter <> EmptyString ->
  Js.newRegExp filter "i" = None ->
  Js.newRegExp filter "gi" = None ->
  Js.includes (shownText view l) filter = false ->
  filtered [l] filter true (connId l) = [l] /\
  renderLogs (filtered [l] filter true (connId l)) view filter true = [None].
Proof.
  intros Hne Hi Hgi Hlit.
  assert (filtered [l] filter true (connId l) = [l]) as Hkept.
  { rewrite filtered_invalid_regex_inert by assumption.
    simpl. unfold inScope. now rewrite String.eqb_refl. }
  split; [exact Hkept |]. rewrite Hkept.
  unfold renderLogs, compileFilter.
  destruct filter as [| c rest]; [congruence |].
  rewrite Hgi. simpl. simpl in Hlit. now rewrite Hlit.
Qed.

(** C5, where the code departs from it. With [useRegex] off, a frame whose
    text does not contain the filter text as it is written is dropped by the
    [filtered] memo and rendered as [null] by [renderLogs], also when the
    filter text occurs in it in another letter case: the two [includes]
    calls compare case-sensitively, while every regular expression of the
    same file is built to ignore case. *)
Theorem plain_filter_drops_other_case (l : LogLine) (filter : string) :
  filter <> EmptyString ->
  Js.includes (text l) filter = false ->
  filtered [l] filter false (connId l) = [] /\
  renderLogs [l] ViewAscii filter false = [None].
Proof.
  intros Hne Hmiss. split.
  - unfold filtered. destruct filter as [| c rest]; [congruence |].
    simpl. unfold inScope. rewrite String.eqb_refl. simpl. now rewrite Hmiss.
  - unfold renderLogs, compileFilter.
    destruct filter as [| c rest]; [congruence |].
    simpl in *. now rewrite Hmiss.
Qed.

(** The plain-text filter as the code has it. With a non-empty filter text
    and [useRegex] off, a frame of the active connection passes exactly when
    the filter text occurs in its text as it is written, letter case
    included; both the [filtered] memo and [renderLogs] decide each frame
    from that frame alone. *)
Theorem plain_filter_is_exact_substring (filter scope : string) :
  filter <> EmptyString ->
  (forall logs,
      filtered logs filter false scope
      = List.filter
          (fun l => inScope scope l && Js.includes (text l) filter) logs) /\
  (forall frames view,
      renderLogs frames view filter false
      = imap (fun k l =>
                if Js.includes (shownText view l) filter
                then Some {| key := k; line := l; shown := shownText view l |}
                else None) frames) /\
  (forall s,
      Js.includes s filter = true <->
      exists before after, s = before +:+ filter +:+ after).
Proof.
  intros Hne. split; [| split].
  - intros logs. unfold filtered. destruct filter; [congruence |].
    apply filter_filter.
  - intros frames view. unfold renderLogs, compileFilter.
    destruct filter as [| c rest]; [congruence |].
    rewrite renderFrom_plain by discriminate. reflexivity.
  - intros s. apply includes_occurs.
Qed.

End FilterProperties.

(** The closed examples below run on the stand-in engine. *)
#[local] Existing Instance Legacy.PlainRegExp.engine.

(** A pattern that compiles filters by the expression, ignoring case. *)
Example filtered_regex_ignores_case :
  Legacy.filtered [textFrame "say hello"; textFrame "Hello"; textFrame "bye"]
    "hello" true "main"
  = [textFrame "say hello"; textFrame "Hello"].
Proof. reflexivity. Qed.

(** Frames of other connections are outside the scope unless it is "all". *)
Example filtered_scope :
  Legacy.filtered [textFrame "a"] EmptyString false "serial-1" = [] /\
  Legacy.filtered [textFrame "a"] EmptyString false "all" = [textFrame "a"].
Proof. split; reflexivity. Qed.

Lemma renderLogs_invalid_regex_drops_frame_witness :
  Js.newRegExp "(" "gi" = None /\
  Legacy.filtered [textFrame "abc"] "(" true "main" = [textFrame "abc"] /\
  Legacy.renderLogs
    (Legacy.filtered [textFrame "abc"] "(" true "main") ViewAscii "(" true
  = [None].
Proof.
  split; [reflexivity |].
  apply (renderLogs_invalid_regex_drops_frame (textFrame "abc") ViewAscii "(");
    [discriminate | reflexivity | reflexivity | reflexivity].
Defined.

Lemma plain_filter_is_exact_substring_witness :
  "hello" <> EmptyString /\
  Legacy.filtered [textFrame "say hello"; textFrame "Hello"] "hello" false "main"
  = [textFrame "say hello"] /\
  Legacy.renderLogs [textFrame "say hello"; textFrame "Hello"] ViewAscii "hello" false
  = [Some {| Legacy.key := 0; Legacy.line := textFrame "say hello";
             Legacy.shown := "say hello" |}; None].
Proof.
  assert ("hello" <> EmptyString) as Hne by discriminate.
  split; [exact Hne |].
  destruct (plain_filter_is_exact_substring "hello" "main" Hne) as (H1 & H2 & _).
  rewrite H1, H2. split; reflexivity.
Defined.

Lemma plain_filter_drops_other_case_witness :
  Legacy.occursIgnoringCase "hello" "Hello" /\
  Legacy.filtered [textFrame "Hello"] "hello" false "main" = [] /\
  Legacy.renderLogs [textFrame "Hello"] ViewAscii "hello" false = [None].
Proof.
  split; [now exists EmptyString, EmptyString |].
  apply (plain_filter_drops_other_case (textFrame "Hello") "hello");
    [discriminate | reflexivity].
Defined.

(** "hello" occurs in "Hello" when case is ignored, and the frame does not
    pass the filter. *)
Lemma plain_filter_misses_other_case :
  ~ (In (textFrame "Hello")
        (Legacy.filtered [textFrame "Hello"] "hello" false "main")
     <-> Legacy.occursIgnoringCase "hello" "Hello").
Proof.
  intros [_ H]. apply H. now exists EmptyString, EmptyString.
Qed.

(** * Properties of the payload formatting *)

Section StringLemmas.

Lemma append_cons (x : ascii) (a b : string) :
  String x a +:+ b = String x (a +:+ b).
Proof. reflexivity. Qed.

Lemma append_assoc (a b c : string) : (a +:+ b) +:+ c = a +:+ b +:+ c.
Proof.
  induction a as [| x a IH]; [reflexivity |].
  now rewrite !append_cons, IH.
Qed.

Lemma flatMapChars_app f (a b : string) :
  Js.flatMapChars f (a +:+ b) = Js.flatMapChars f a +:+ Js.flatMapChars f b.
Proof.
  induction a as [| x a IH]; [reflexivity |].
  rewrite append_cons. cbn [Js.flatMapChars].
  now rewrite IH, append_assoc.
Qed.

(** Replacing a one-unit pattern rewrites every code unit on its own. *)
Lemma replaceAll_single (c0 : ascii) (replacement s : string) :
  Js.replaceAll s (String c0 EmptyString) replacement
  = Js.flatMapChars
      (fun c => if Ascii.eqb c c0 then replacement else String c EmptyString) s.
Proof.
  unfold Js.replaceAll.
  induction s as [| c s IH]; [reflexivity |].
  cbn [Js.replaceAllFrom Js.flatMapChars String.prefix String.length Nat.sub].
  destruct (ascii_dec c0 c) as [<- | NE].
  - rewrite Ascii.eqb_refl.
    replace (String.prefix EmptyString s) with true by now destruct s.
    now rewrite IH.
  - destruct (Ascii.eqb_spec c c0) as [E | _]; [congruence |].
    simpl. now rewrite IH.
Qed.

Lemma replaceAll_single_app c0 replacement (a b : string) :
  Js.replaceAll (a +:+ b) (String c0 EmptyString) replacement
  = Js.replaceAll a (String c0 EmptyString) replacement
    +:+ Js.replaceAll b (String c0 EmptyString) replacement.
Proof. rewrite !replaceAll_single. apply flatMapChars_app. Qed.

End StringLemmas.

Section LineEnds.
Import Format.

Lemma prefix_nil (s : string) : String.prefix EmptyString s = true.
Proof. now destruct s. Qed.

Lemma prefix_CRLF (c d : ascii) (s : string) :
  String.prefix CRLF (String c (String d s))
  = (Ascii.eqb c crChar && Ascii.eqb d lfChar)%bool.
Proof.
  change CRLF with (String crChar (String lfChar EmptyString)).
  cbn [String.prefix]. rewrite prefix_nil.
  destruct (ascii_dec crChar c) as [<- | NE].
  - rewrite Ascii.eqb_refl.
    destruct (ascii_dec lfChar d) as [<- | NE'].
    + now rewrite Ascii.eqb_refl.
    + destruct (Ascii.eqb_spec d lfChar); [congruence | reflexivity].
  - destruct (Ascii.eqb_spec c crChar); [congruence | reflexivity].
Qed.

(** One step of [replaceAll] with the pattern ["\r\n"]. *)
Lemma replaceAll_CRLF_cons (c : ascii) (s replacement : string) :
  Js.replaceAllFrom 0 (String c s) CRLF replacement
  = match s with
    | String d s' =>
        if Ascii.eqb c crChar && Ascii.eqb d lfChar
        then replacement +:+ Js.replaceAllFrom 0 s' CRLF replacement
        else String c (Js.replaceAllFrom 0 s CRLF replacement)
    | EmptyString => String c EmptyString
    end.
Proof.
  destruct s as [| d s'].
  - change CRLF with (String crChar (String lfChar EmptyString)).
    cbn [Js.replaceAllFrom String.prefix].
    now destruct (ascii_dec crChar c).
  - cbn [Js.replaceAllFrom]. rewrite prefix_CRLF.
    now destruct (Ascii.eqb c crChar && Ascii.eqb d lfChar)%bool.
Qed.

(** Every ["\r\n"] of the text is found by the first pass, whatever is
    around it. *)
Lemma replaceAll_CRLF_app (replacement before after : string) :
  Js.replaceAll (before +:+ CRLF +:+ after) CRLF replacement
  = Js.replaceAll before CRLF replacement
    +:+ replacement +:+ Js.replaceAll after CRLF replacement.
Proof.
  change (Js.replaceAllFrom 0 (before +:+ CRLF +:+ after) CRLF replacement
          = Js.replaceAllFrom 0 before CRLF replacement
            +:+ replacement +:+ Js.replaceAllFrom 0 after CRLF replacement).
  remember (String.length before) as n eqn:Hn.
  revert before Hn.
  induction n as [n IH] using lt_wf_ind. intros before Hn.
  destruct before as [| c [| d before]].
  - change (EmptyString +:+ CRLF +:+ after)
      with (String crChar (String lfChar after)).
    rewrite replaceAll_CRLF_cons, !Ascii.eqb_refl. reflexivity.
  - change (String c EmptyString +:+ CRLF +:+ after)
      with (String c (String crChar (String lfChar after))).
    rewrite (replaceAll_CRLF_cons c).
    change (Ascii.eqb crChar lfChar) with false. rewrite andb_false_r.
    rewrite !replaceAll_CRLF_cons, !Ascii.eqb_refl. reflexivity.
  - change (String c (String d before) +:+ CRLF +:+ after)
      with (String c (String d (before +:+ CRLF +:+ after))).
    rewrite !(replaceAll_CRLF_cons c). simpl in Hn.
    destruct (Ascii.eqb c crChar && Ascii.eqb d lfChar)%bool.
    + rewrite (IH (String.length before)) by (lia || reflexivity).
      now rewrite append_assoc.
    + change (String d (before +:+ CRLF +:+ after))
        with (String d before +:+ CRLF +:+ after).
      rewrite (IH (String.length (String d before)))
        by (simpl; lia || reflexivity).
      reflexivity.
Qed.

Example formatPayload_line_ends :
  formatPayload [] ViewAscii ("a" +:+ CRLF +:+ "b" +:+ CR +:+ CR +:+ LF +:+ LF)
  = "a⏎CRLF b␍CR ⏎CRLF ␊LF ".
Proof. reflexivity. Qed.

Example detailText_line_ends :
  LogView.detailText (Some (textFrame ("a" +:+ LF +:+ "b" +:+ CR +:+ "c")))
  = "a\n" +:+ LF +:+ "b\rc".
Proof. reflexivity. Qed.

(** The payload column: a ["\r\n"] pair is rendered as the combined marker
    and nothing else; the text before and after it is formatted on its
    own. *)
Lemma formatPayload_ascii_crlf (raw : list Z) (before after : string) :
  formatPayload raw ViewAscii (before +:+ CRLF +:+ after)
  = formatPayload raw ViewAscii before
    +:+ CRLF_MARK +:+ formatPayload raw ViewAscii after.
Proof.
  unfold formatPayload.
  rewrite replaceAll_CRLF_app.
  unfold LF, CR. rewrite !replaceAll_single_app. reflexivity.
Qed.

(** The detail pane on a frame whose text is one CR LF pair. *)
Example detailText_crlf_alone :
  LogView.detailText (Some (textFrame CRLF)) = "\r\n\n" +:+ LF.
Proof. reflexivity. Qed.

(** C7, where the code departs from it. In the detail pane the replacement
    for ["\r\n"] itself ends in a line feed, which the second pass marks
    again: the pair is rendered as the CRLF escape followed by an LF escape,
    not as the CRLF escape alone. The payload column ([formatPayload]) has
    the same order of passes and renders the pair as its one marker. *)
Theorem detailText_marks_crlf_twice (raw : list Z) (before after : string) :
  LogView.detailText (Some (textFrame (before +:+ CRLF +:+ after)))
  = LogView.detailText (Some (textFrame before))
    +:+ ("\r\n" +:+ LogView.DETAIL_LF)
    +:+ LogView.detailText (Some (textFrame after)) /\
  "\r\n" +:+ LogView.DETAIL_LF <> LogView.DETAIL_CRLF /\
  formatPayload raw ViewAscii (before +:+ CRLF +:+ after)
  = formatPayload raw ViewAscii before
    +:+ CRLF_MARK +:+ formatPayload raw ViewAscii after.
Proof.
  split; [| split; [discriminate | apply formatPayload_ascii_crlf]].
  unfold LogView.detailText, textFrame; cbn [text].
  rewrite replaceAll_CRLF_app.
  unfold LF, CR. rewrite !replaceAll_single_app. reflexivity.
Qed.

End LineEnds.

Section Hex.
Import Format.

(** The 256 byte values, checked one by one. *)
Lemma bytes_checked :
  forallb (fun b => String.eqb (renderByte b) (twoHexDigits b)
                    && match hexPair (upperHexDigit (b / 16))
                                     (upperHexDigit (b mod 16)) with
                       | Some v => v =? b
                       | None => false
                       end)
          (seqZ 0 256) = true.
Proof. vm_compute. reflexivity. Qed.

Lemma byte_checked (b : Z) :
  0 <= b <= 255 ->
  renderByte b = twoHexDigits b /\
  hexPair (upperHexDigit (b / 16)) (upperHexDigit (b mod 16)) = Some b.
Proof.
  intros Hb. pose proof bytes_checked as H.
  rewrite forallb_forall in H. specialize (H b).
  rewrite andb_true_iff in H. destruct H as [H1 H2].
  - apply list_elem_of_In, elem_of_seqZ. lia.
  - split; [now apply String.eqb_eq |].
    destruct (hexPair _ _) as [v |]; [| discriminate].
    f_equal. now apply Z.eqb_eq.
Qed.

Lemma formatPayload_hex_digits (raw : list Z) (text : string) :
  Forall (fun b => 0 <= b <= 255) raw ->
  formatPayload raw ViewHex text = Js.join " " (map twoHexDigits raw).
Proof.
  intros Hraw. unfold formatPayload. f_equal.
  induction Hraw as [| b raw Hb _ IH]; [reflexivity |].
  cbn [map]. rewrite IH. f_equal. now apply byte_checked.
Qed.

Lemma parseHexPairs_join (raw : list Z) :
  Forall (fun b => 0 <= b <= 255) raw ->
  parseHexPairs (Js.join " " (map twoHexDigits raw)) = Some raw.
Proof.
  induction 1 as [| b raw Hb Hraw IH]; [reflexivity |].
  destruct (byte_checked b Hb) as [_ Hpair].
  destruct raw as [| b' raw].
  - cbn [map Js.join String.concat twoHexDigits parseHexPairs].
    now rewrite Hpair.
  - change (Js.join " " (map twoHexDigits (b :: b' :: raw)))
      with (String (upperHexDigit (b / 16))
              (String (upperHexDigit (b mod 16))
                 (String " " (Js.join " " (map twoHexDigits (b' :: raw)))))).
    cbn [parseHexPairs]. rewrite Hpair, IH. reflexivity.
Qed.

(** C8. For bytes in 0..255 the hex rendering is the two upper-case digits
    of each byte, joined by single spaces in the order of the bytes, and
    reading the pairs back gives the bytes again. *)
Theorem hex_rendering_round_trip (raw : list Z) (text : string) :
  Forall (fun b => 0 <= b <= 255) raw ->
  formatPayload raw ViewHex text = Js.join " " (map twoHexDigits raw) /\
  parseHexPairs (formatPayload raw ViewHex text) = Some raw.
Proof.
  intros Hraw. split; [now apply formatPayload_hex_digits |].
  rewrite formatPayload_hex_digits by assumption.
  now apply parseHexPairs_join.
Qed.

End Hex.

Lemma hex_rendering_round_trip_witness :
  Forall (fun b => 0 <= b <= 255) [0; 10; 255; 16] /\
  Format.formatPayload [0; 10; 255; 16] ViewHex "" = "00 0A FF 10" /\
  Format.parseHexPairs (Format.formatPayload [0; 10; 255; 16] ViewHex "")
  = Some [0; 10; 255; 16].
Proof.
  assert (Forall (fun b => 0 <= b <= 255) [0; 10; 255; 16]) as H
    by (repeat constructor; lia).
  split; [exact H |].
  destruct (hex_rendering_round_trip [0; 10; 255; 16] "" H) as [H1 H2].
  split; [rewrite H1; reflexivity | exact H2].
Defined.

(** * Properties of the viewport projection *)

Section Viewport.
Import LogView.

(** Inside the store every index of the window has a frame, so the loop
    materializes the whole window. *)
Lemma window_rows (logs : list LogLine) (window : list Z) :
  Forall (fun i => 0 <= i < Z.of_nat (length logs)) window ->
  map index
    (omap (fun i =>
             match logs !! Z.to_nat i with
             | Some l => Some {| id := i + 1; index := i; rowLine := l |}
             | None => None
             end) window)
  = window.
Proof.
  induction 1 as [| i window Hi _ IH]; [reflexivity |].
  cbn [omap list_omap].
  destruct (lookup_lt_is_Some_2 logs (Z.to_nat i)) as [l Hl]; [lia |].
  rewrite Hl. cbn [map index]. fold (@omap list _ Z Row). now rewrite IH.
Qed.

Lemma visibleRows_indices (logs : list LogLine) (scrollTop viewportHeight : Q) :
  let first := visibleStart scrollTop in
  let last := visibleEnd (Z.of_nat (length logs)) scrollTop viewportHeight in
  map index (visibleRows logs scrollTop viewportHeight)
  = seqZ first (last - first).
Proof.
  intros first last. unfold visibleRows. apply window_rows.
  apply list.Forall_forall. intros i Hi.
  apply elem_of_seqZ in Hi.
  assert (0 <= first) by apply Z.le_max_l.
  assert (last <= Z.of_nat (length logs)) by apply Z.le_min_l.
  fold first last in Hi. lia.
Qed.

(** C3, as the code computes it. The window is measured against the body
    height, [max(viewportHeight - 30, 280)], not against the viewport
    height. With a row height of 28, an overscan of 12, 1000 rows and a
    scroll offset of 560: a viewport height of 300 gives a body height of
    280, [visibleEnd] = min(1000, ceil((560+280)/28)+12) = 42, rows [8, 42)
    and spacers of 224 and (1000-42)*28 = 26824; a body height of 300
    (viewport height 330) gives rows [8, 43) and spacers of 224 and
    26796. *)
Theorem viewport_window_example (logs : list LogLine) :
  length logs = 1000%nat ->
  visibleStart 560 = 8 /\
  topSpacerHeight 560 = 224 /\
  (bodyHeight 300 == 280)%Q /\
  visibleEnd 1000 560 300 = 42 /\
  map index (visibleRows logs 560 300) = seqZ 8 (42 - 8) /\
  bottomSpacerHeight 1000 560 300 = 26824 /\
  (bodyHeight 330 == 300)%Q /\
  visibleEnd 1000 560 330 = 43 /\
  map index (visibleRows logs 560 330) = seqZ 8 (43 - 8) /\
  bottomSpacerHeight 1000 560 330 = 26796.
Proof.
  intros Hlen.
  pose proof (visibleRows_indices logs 560 300) as H300.
  pose proof (visibleRows_indices logs 560 330) as H330.
  cbv zeta in H300, H330. rewrite Hlen in H300, H330.
  change (Z.of_nat 1000) with 1000 in H300, H330.
  change (visibleStart 560) with 8 in H300, H330.
  change (visibleEnd 1000 560 300) with 42 in H300.
  change (visibleEnd 1000 560 330) with 43 in H330.
  repeat split; try reflexivity; assumption.
Qed.

End Viewport.

Lemma viewport_window_example_witness :
  map LogView.index (LogView.visibleRows (replicate 1000 (textFrame "ok")) 560 300)
  = seqZ 8 34.
Proof.
  destruct (viewport_window_example (replicate 1000 (textFrame "ok")))
    as (_ & _ & _ & _ & H & _); [apply length_replicate |].
  exact H.
Defined.

(** C3 as stated fails: with a viewport height of 300 the window ends at
    row 42, not 43, and the lower spacer is 26824 px, not 26796 px. *)
Lemma viewport_300_window_is_not_8_43 :
  ~ (LogView.visibleEnd 1000 560 300 = 43 /\
     LogView.bottomSpacerHeight 1000 560 300 = 26796).
Proof. intros [H _]. vm_compute in H. discriminate. Qed.

(** * Properties of the persisted settings *)

Section SettingsProperties.
Import Settings.

Lemma mergedOver_defaults (defaults stored : gmap string json) :
  mergedOver defaults stored defaults.
Proof. split; [reflexivity | intros; reflexivity]. Qed.

Lemma mergedOver_spread (defaults stored : gmap string json) :
  mergedOver defaults stored (spread defaults stored).
Proof.
  unfold spread. split.
  - rewrite dom_union. set_solver.
  - intros name Hmissing. now apply lookup_union_r.
Qed.

Lemma defaultSettings_serial : defaultSettings !! "serial" = Some (JObj defaultSerial).
Proof. reflexivity. Qed.

Lemma defaultSettings_socket : defaultSettings !! "socket" = Some (JObj defaultSocket).
Proof. reflexivity. Qed.

Lemma ownProps_orEmptyObject_None : ownProps (orEmptyObject None) = ∅.
Proof. reflexivity. Qed.

(** The record built from a parsed value that is not [null]. *)
Lemma merged_record (stored : gmap string json) :
  let serial := spread defaultSerial (ownProps (orEmptyObject (stored !! "serial"))) in
  let socket := spread defaultSocket (ownProps (orEmptyObject (stored !! "socket"))) in
  mergedOver defaultSettings stored
    (<["socket" := JObj socket]>
       (<["serial" := JObj serial]> (spread defaultSettings stored))).
Proof.
  intros serial socket. split.
  - pose proof (mergedOver_spread defaultSettings stored) as [H _].
    intros name Hname. apply H in Hname.
    rewrite !dom_insert, !elem_of_union. now right; right.
  - intros name Hmissing.
    destruct (decide (name = "socket")) as [-> | Hsocket].
    { rewrite lookup_insert_eq, defaultSettings_socket. subst socket.
      rewrite Hmissing, ownProps_orEmptyObject_None.
      unfold spread. now rewrite (left_id_L ∅ (∪)). }
    rewrite lookup_insert_ne by congruence.
    destruct (decide (name = "serial")) as [-> | Hserial].
    { rewrite lookup_insert_eq, defaultSettings_serial. subst serial.
      rewrite Hmissing, ownProps_orEmptyObject_None.
      unfold spread. now rewrite (left_id_L ∅ (∪)). }
    rewrite lookup_insert_ne by congruence.
    now apply mergedOver_spread.
Qed.

(** C9. Whatever the storage holds and however the runtime's calls end,
    [loadSettings] returns normally with an object that has every field of
    the defaults, whose [serial] and [socket] are objects with every field
    of their defaults, and in which every field that the stored record
    lacks, at the top level or inside [serial] or [socket], has its default
    value; and [saveSettings] returns normally whether or not the write
    went through. *)
Theorem settings_load_over_defaults_save_silent
    (rt : Runtime) (storage : gmap string string) (toSave : json) :
  (exists settings serial socket,
      loadSettings rt storage = Normal (JObj settings) /\
      settings !! "serial" = Some (JObj serial) /\
      settings !! "socket" = Some (JObj socket) /\
      mergedOver defaultSettings (storedRecord rt storage) settings /\
      mergedOver defaultSerial (storedNested rt storage "serial") serial /\
      mergedOver defaultSocket (storedNested rt storage "socket") socket) /\
  (exists storage', saveSettings rt storage toSave = Normal storage').
Proof.
  split.
  - assert (forall stored ser sock,
              exists settings serial socket,
                Normal (JObj defaultSettings) = Normal (JObj settings) /\
                settings !! "serial" = Some (JObj serial) /\
                settings !! "socket" = Some (JObj socket) /\
                mergedOver defaultSettings stored settings /\
                mergedOver defaultSerial ser serial /\
                mergedOver defaultSocket sock socket) as Hdefault.
    { intros. exists defaultSettings, defaultSerial, defaultSocket.
      repeat split; try reflexivity; intros; reflexivity. }
    unfold loadSettings, storedNested, storedRecord.
    destruct (getItem rt storage SETTINGS_KEY) as [[raw |] | e]; cbn;
      try apply Hdefault.
    destruct raw as [| c raw]; [apply Hdefault |].
    destruct (JSON_parse rt (String c raw)) as [parsed | e]; cbn;
      [| apply Hdefault].
    assert (parsed = JNull \/ parsed <> JNull) as [-> | Hnull]
      by (destruct parsed; (left; reflexivity) || (right; discriminate));
      [apply Hdefault |].
    assert (getProp parsed "serial" = Normal (ownProps parsed !! "serial")) as ->
      by (destruct parsed; [congruence | reflexivity ..]).
    assert (getProp parsed "socket" = Normal (ownProps parsed !! "socket")) as ->
      by (destruct parsed; [congruence | reflexivity ..]).
    cbn. eexists _, _, _. split; [reflexivity |].
    split; [rewrite lookup_insert_ne by discriminate; apply lookup_insert_eq |].
    split; [apply lookup_insert_eq |].
    split; [apply merged_record |].
    split; apply mergedOver_spread.
  - unfold saveSettings.
    destruct (JSON_stringify rt toSave) as [serialized | e]; cbn; [| eauto].
    destruct (setItem rt storage SETTINGS_KEY serialized); cbn; eauto.
Qed.

End SettingsProperties.

Lemma settings_load_over_defaults_save_silent_witness :
  exists settings serial,
    Settings.loadSettings (Settings.exampleRuntime 8)
      (<[Settings.SETTINGS_KEY := Settings.partialText]> ∅)
    = Settings.Normal (Settings.JObj settings) /\
    settings !! "serial" = Some (Settings.JObj serial) /\
    serial !! "parity" = Some (Settings.JStr "none") /\
    Settings.saveSettings (Settings.exampleRuntime 8) ∅ Settings.partialValue
    = Settings.Normal ∅.
Proof.
  destruct (settings_load_over_defaults_save_silent
              (Settings.exampleRuntime 8)
              (<[Settings.SETTINGS_KEY := Settings.partialText]> ∅)
              Settings.partialValue)
    as [(settings & serial & socket & Hload & Hserial & _ & _ & [_ Hmiss] & _) _].
  exists settings, serial.
  split; [exact Hload |]. split; [exact Hserial |].
  split; [| reflexivity].
  rewrite Hmiss; reflexivity.
Defined.

(** * More on the ingestion batcher *)

Section IngestionMore.
Import LogStream.

Lemma logs_capped_lastn (flushed : list LogLine) :
  Z.of_nat (length (lastn (Z.to_nat MAX_LOG_LINES) flushed)) <= MAX_LOG_LINES.
Proof. rewrite length_lastn. pose proof MAX_LOG_LINES_nonneg. lia. Qed.

(** While the hook is mounted and nothing is cleared, every delivered frame
    is either flushed or pending, in arrival order, and the store is the
    newest part of what was flushed. *)
Lemma mounted_invariant evs :
  forallb isLogOrTimer evs = true ->
  disposed (run initial evs) = false /\
  exists flushed,
    delivered evs = flushed ++ pending (run initial evs) /\
    logs (run initial evs) = lastn (Z.to_nat MAX_LOG_LINES) flushed.
Proof.
  induction evs as [| ev evs IH] using rev_ind; intros Hevs.
  - split; [reflexivity |]. now exists [].
  - rewrite forallb_app, andb_true_iff in Hevs. destruct Hevs as [Hevs Hev].
    destruct (IH Hevs) as (Hd & flushed & Hdel & Hlogs).
    rewrite run_snoc, delivered_snoc, Hdel.
    set (s := run initial evs) in *.
    destruct ev as [payload | | |]; try discriminate; simpl.
    + unfold onLog. destruct (String.eqb (dir payload) "SYS").
      * split; [assumption |]. exists flushed. now rewrite app_nil_r.
      * unfold scheduleFlush; simpl. destruct (flushTimer s); simpl;
          (split; [assumption |]; exists flushed;
           split; [now rewrite app_assoc | assumption]).
    + rewrite app_nil_r. destruct (flushTimer s); [| split; [assumption | now exists flushed]].
      unfold flushPending; simpl. rewrite Hd; simpl.
      destruct (Z.eqb_spec (Z.of_nat (length (pending s))) 0) as [E | NE]; simpl.
      * split; [done |]. now exists flushed.
      * split; [done |]. exists (flushed ++ pending s).
        split; [now rewrite app_nil_r |].
        rewrite appendLogs_capped by (rewrite Hlogs; apply logs_capped_lastn).
        rewrite Hlogs. apply lastn_absorb.
Qed.

(** X1. In a trace of transport events and timer callbacks, no accepted
    frame is lost other than by capacity: the accepted frames are, in
    arrival order, the flushed ones followed by the pending ones, and the
    store is the newest 6000 of the flushed ones. *)
Theorem mounted_stream_keeps_every_frame (evs : list Event) :
  forallb isLogOrTimer evs = true ->
  exists flushed,
    delivered evs = flushed ++ pending (run initial evs) /\
    logs (run initial evs) = lastn (Z.to_nat MAX_LOG_LINES) flushed.
Proof. intros Hevs. now destruct (mounted_invariant evs Hevs) as [_ H]. Qed.

Lemma step_timer_armed s ev :
  (disposed s = false -> pending s <> [] -> flushTimer s = true) ->
  disposed (step s ev) = false -> pending (step s ev) <> [] ->
  flushTimer (step s ev) = true.
Proof.
  intros Inv. destruct ev as [payload | | |]; simpl.
  - unfold onLog. destruct (String.eqb (dir payload) "SYS"); [exact Inv |].
    unfold scheduleFlush; simpl. now destruct (flushTimer s).
  - destruct (flushTimer s) eqn:Ht; [| now rewrite Ht].
    unfold flushPending; simpl. destruct (disposed s); simpl; [discriminate |].
    destruct (Z.eqb_spec (Z.of_nat (length (pending s))) 0) as [E | NE]; simpl.
    + intros _ Hp. destruct (pending s); [congruence | simpl in E; lia].
    + congruence.
  - congruence.
  - discriminate.
Qed.

(** X2. A mounted hook never holds a pending frame without an armed
    timeout: every accepted frame is flushed by the next timer callback. *)
Theorem pending_frames_have_a_timer (evs : list Event) :
  disposed (run initial evs) = false ->
  pending (run initial evs) <> [] ->
  flushTimer (run initial evs) = true.
Proof.
  induction evs as [| ev evs IH] using rev_ind.
  - simpl. congruence.
  - rewrite run_snoc. apply step_timer_armed.
    intros Hd Hp. destruct (disposed (run initial evs)) eqn:E; [discriminate |].
    now apply IH.
Qed.

Lemma step_disposed s ev : disposed s = true -> disposed (step s ev) = true.
Proof.
  intros Hd. destruct ev as [payload | | |]; simpl; try assumption; try reflexivity.
  - unfold onLog. destruct (String.eqb (dir payload) "SYS"); [assumption |].
    unfold scheduleFlush; simpl. now destruct (flushTimer s).
  - destruct (flushTimer s); [| assumption].
    unfold flushPending; simpl. now rewrite Hd.
Qed.

(** X3. After the cleanup of the effect, no transport event and no timer
    callback changes the store: frames that arrive late are never
    appended. *)
Theorem unmounted_store_is_frozen (s : State) (evs : list Event) :
  forallb (fun ev => negb (isClear ev)) evs = true ->
  logs (run (cleanup s) evs) = logs s /\
  disposed (run (cleanup s) evs) = true.
Proof.
  induction evs as [| ev evs IH] using rev_ind; intros Hevs.
  - now split.
  - rewrite forallb_app, andb_true_iff in Hevs. destruct Hevs as [Hevs Hev].
    destruct (IH Hevs) as [Hl Hd]. rewrite run_snoc.
    split; [| now apply step_disposed].
    rewrite <- Hl. set (s' := run (cleanup s) evs) in *.
    destruct ev as [payload | | |]; simpl; try reflexivity; try discriminate.
    + unfold onLog. destruct (String.eqb (dir payload) "SYS"); [reflexivity |].
      unfold scheduleFlush; simpl. now destruct (flushTimer s').
    + destruct (flushTimer s'); [| reflexivity].
      unfold flushPending; simpl. now rewrite Hd.
Qed.

Lemma run_logs_events (frames : list LogLine) : forall s,
  let s' := run s (map EvLog frames) in
  logs s' = logs s /\
  pending s' = pending s ++ delivered (map EvLog frames) /\
  disposed s' = disposed s /\
  flushTimer s'
  = (flushTimer s || negb (Nat.eqb (length (delivered (map EvLog frames))) 0))%bool.
Proof.
  induction frames as [| f frames IH]; intros s; simpl.
  - rewrite app_nil_r, orb_false_r. now repeat split.
  - destruct (IH (onLog f s)) as (Hl & Hp & Hd & Ht).
    unfold run in *. rewrite Hl, Hp, Hd, Ht. unfold onLog.
    destruct (String.eqb (dir f) "SYS"); simpl; [now repeat split |].
    unfold scheduleFlush; simpl.
    destruct (flushTimer s); simpl; rewrite <- ?app_assoc; repeat split;
      now rewrite ?orb_true_r.
Qed.

(** X4. However many frames arrive between two timer callbacks, the store
    changes once: the callback appends what was pending and what has been
    accepted since as one batch, and leaves nothing pending. *)
Theorem burst_is_flushed_as_one_batch (s : State) (frames : list LogLine) :
  disposed s = false ->
  (pending s <> [] -> flushTimer s = true) ->
  let s' := run s (map EvLog frames ++ [EvTimer]) in
  logs s' = appendLogs (logs s) (pending s ++ delivered (map EvLog frames)) /\
  pending s' = [] /\
  flushTimer s' = false.
Proof.
  intros Hd Harmed s'. subst s'. rewrite run_snoc.
  destruct (run_logs_events frames s) as (Hl & Hp & Hd' & Ht).
  set (s1 := run s (map EvLog frames)) in *.
  set (batch := pending s ++ delivered (map EvLog frames)) in *.
  simpl. destruct (flushTimer s1) eqn:Ht1.
  - unfold flushPending; simpl. rewrite Hd', Hd, Hp, Hl; simpl.
    destruct (Z.eqb_spec (Z.of_nat (length batch)) 0) as [E | NE]; simpl.
    + destruct batch; [now repeat split | simpl in E; lia].
    + now repeat split.
  - symmetry in Ht. apply orb_false_iff in Ht. destruct Ht as [Hts Hnone].
    apply negb_false_iff, Nat.eqb_eq in Hnone.
    assert (delivered (map EvLog frames) = []) as Hnil
      by (destruct (delivered (map EvLog frames)); [reflexivity | discriminate]).
    assert (pending s = []) as Hpnil.
    { destruct (pending s) eqn:E; [reflexivity |].
      rewrite Harmed in Hts; [discriminate | discriminate]. }
    subst batch. rewrite Hl, Hp, Hnil, Hpnil. now repeat split.
Qed.

(** X5. A batch that fits the capacity is never cut: it ends the store, in
    order, and what stays before it is the newest part of the previous
    store. *)
Theorem appendLogs_keeps_fitting_batch (previous incoming : list LogLine) :
  Z.of_nat (length incoming) <= MAX_LOG_LINES ->
  exists dropped kept,
    previous = dropped ++ kept /\
    appendLogs previous incoming = kept ++ incoming.
Proof.
  intros Hfit. destruct incoming as [| x incoming].
  - exists [], previous. now rewrite appendLogs_nil, app_nil_r.
  - rewrite appendLogs_lastn by discriminate.
    rewrite lastn_app_short by lia.
    eexists _, _. split; [| reflexivity].
    symmetry. apply lastn_suffix.
Qed.

End IngestionMore.

Lemma mounted_stream_keeps_every_frame_witness :
  exists flushed,
    [textFrame "a"; textFrame "b"; textFrame "c"]
    = flushed ++ [textFrame "c"] /\
    [textFrame "a"; textFrame "b"]
    = LogStream.lastn (Z.to_nat MAX_LOG_LINES) flushed.
Proof.
  exact (mounted_stream_keeps_every_frame
           [LogStream.EvLog (textFrame "a"); LogStream.EvLog Legacy.sysNotice;
            LogStream.EvLog (textFrame "b"); LogStream.EvTimer;
            LogStream.EvLog (textFrame "c")] eq_refl).
Defined.

Lemma pending_frames_have_a_timer_witness :
  LogStream.flushTimer
    (LogStream.run LogStream.initial
       [LogStream.EvLog (textFrame "a"); LogStream.EvTimer;
        LogStream.EvLog (textFrame "b")]) = true.
Proof.
  apply pending_frames_have_a_timer; [reflexivity | discriminate].
Defined.

Lemma unmounted_store_is_frozen_witness :
  LogStream.logs
    (LogStream.run
       (LogStream.cleanup
          (LogStream.run LogStream.initial
             [LogStream.EvLog (textFrame "a"); LogStream.EvTimer]))
       [LogStream.EvLog (textFrame "late"); LogStream.EvTimer])
  = [textFrame "a"].
Proof.
  apply (unmounted_store_is_frozen
           (LogStream.run LogStream.initial
              [LogStream.EvLog (textFrame "a"); LogStream.EvTimer])
           [LogStream.EvLog (textFrame "late"); LogStream.EvTimer] eq_refl).
Defined.

Lemma burst_is_flushed_as_one_batch_witness :
  LogStream.logs
    (LogStream.run LogStream.initial
       (map LogStream.EvLog [textFrame "a"; Legacy.sysNotice; textFrame "b"]
        ++ [LogStream.EvTimer]))
  = [textFrame "a"; textFrame "b"].
Proof.
  destruct (burst_is_flushed_as_one_batch LogStream.initial
              [textFrame "a"; Legacy.sysNotice; textFrame "b"])
    as (H & _ & _); [reflexivity | intros H; now destruct H |].
  rewrite H. reflexivity.
Defined.

Lemma appendLogs_keeps_fitting_batch_witness :
  exists dropped kept,
    [textFrame "old"] = dropped ++ kept /\
    LogStream.appendLogs [textFrame "old"] [textFrame "new"]
    = kept ++ [textFrame "new"].
Proof.
  apply appendLogs_keeps_fitting_batch. vm_compute. discriminate.
Defined.

(** * More on the viewport projection *)

Section ViewportMore.
Import LogView.

Lemma floor_lt (x : Q) (n : Z) : (x < inject_Z n)%Q -> Qfloor x < n.
Proof.
  intros H. rewrite Zlt_Qlt. eapply Qle_lt_trans; [apply Qfloor_le | exact H].
Qed.

Lemma floor_ge (x : Q) (n : Z) : (inject_Z n <= x)%Q -> n <= Qfloor x.
Proof. intros H. rewrite <- (Qfloor_Z n). now apply Qfloor_resp_le. Qed.

Lemma ceil_gt (x : Q) (n : Z) : (inject_Z n < x)%Q -> n < Qceiling x.
Proof.
  intros H. rewrite Zlt_Qlt. eapply Qlt_le_trans; [exact H | apply Qle_ceiling].
Qed.

Lemma ceil_le (x : Q) (n : Z) : (x <= inject_Z n)%Q -> Qceiling x <= n.
Proof. intros H. rewrite <- (Qceiling_Z n). now apply Qceiling_resp_le. Qed.

Lemma rowHeight_positive : (0 < inject_Z ROW_HEIGHT_PX)%Q.
Proof. reflexivity. Qed.

Lemma bodyHeight_min (viewportHeight : Q) :
  (inject_Z (ROW_HEIGHT_PX * 10) <= bodyHeight viewportHeight)%Q.
Proof. unfold bodyHeight. apply Q.le_max_r. Qed.

Lemma rows_length (logs : list LogLine) (scrollTop viewportHeight : Q) :
  Z.of_nat (length (visibleRows logs scrollTop viewportHeight))
  = Z.max 0 (visibleEnd (Z.of_nat (length logs)) scrollTop viewportHeight
             - visibleStart scrollTop).
Proof.
  rewrite <- (length_map index), visibleRows_indices, length_seqZ.
  generalize (visibleEnd (Z.of_nat (length logs)) scrollTop viewportHeight
              - visibleStart scrollTop).
  intros d. lia.
Qed.

(** X6. Every row of the table that overlaps the visible body, from
    [scrollTop] to [scrollTop + bodyHeight], is materialized. *)
Theorem visible_rows_are_materialized
    (logs : list LogLine) (scrollTop viewportHeight : Q) (i : Z) :
  0 <= i < Z.of_nat (length logs) ->
  (inject_Z (i * ROW_HEIGHT_PX) < scrollTop + bodyHeight viewportHeight)%Q ->
  (scrollTop < inject_Z ((i + 1) * ROW_HEIGHT_PX))%Q ->
  exists l,
    logs !! Z.to_nat i = Some l /\
    {| id := i + 1; index := i; rowLine := l |}
      ∈ visibleRows logs scrollTop viewportHeight.
Proof.
  intros Hi Htop Hbottom.
  assert (visibleStart scrollTop <= i) as Hstart.
  { unfold visibleStart, OVERSCAN_ROWS.
    assert (Qfloor (scrollTop / inject_Z ROW_HEIGHT_PX) < i + 1); [| lia].
    apply floor_lt. rewrite inject_Z_mult in Hbottom.
    apply Qlt_shift_div_r; [apply rowHeight_positive | exact Hbottom]. }
  assert (i < visibleEnd (Z.of_nat (length logs)) scrollTop viewportHeight) as Hend.
  { unfold visibleEnd, OVERSCAN_ROWS.
    assert (i < Qceiling ((scrollTop + bodyHeight viewportHeight)
                          / inject_Z ROW_HEIGHT_PX)); [| lia].
    apply ceil_gt. rewrite inject_Z_mult in Htop.
    apply Qlt_shift_div_l; [apply rowHeight_positive | exact Htop]. }
  destruct (lookup_lt_is_Some_2 logs (Z.to_nat i)) as [l Hl]; [lia |].
  exists l. split; [exact Hl |].
  unfold visibleRows. apply list_elem_of_omap. exists i.
  split; [apply elem_of_seqZ; lia | now rewrite Hl].
Qed.

(** X7. The number of materialized rows depends on the body height only,
    not on the number of frames: it is at most [ceil(bodyHeight / 28)] rows
    plus the overscan on both sides plus one. *)
Theorem materialized_rows_are_bounded
    (logs : list LogLine) (scrollTop viewportHeight : Q) :
  Z.of_nat (length (visibleRows logs scrollTop viewportHeight))
  <= Qceiling (bodyHeight viewportHeight / inject_Z ROW_HEIGHT_PX)
     + 2 * OVERSCAN_ROWS + 1.
Proof.
  rewrite rows_length. unfold visibleEnd, visibleStart.
  set (f := Qfloor (scrollTop / inject_Z ROW_HEIGHT_PX)).
  set (b := Qceiling (bodyHeight viewportHeight / inject_Z ROW_HEIGHT_PX)).
  assert (Qceiling ((scrollTop + bodyHeight viewportHeight)
                    / inject_Z ROW_HEIGHT_PX) <= f + 1 + b) as Hc.
  { apply ceil_le. rewrite !inject_Z_plus.
    setoid_replace ((scrollTop + bodyHeight viewportHeight) / inject_Z ROW_HEIGHT_PX)%Q
      with (scrollTop / inject_Z ROW_HEIGHT_PX
            + bodyHeight viewportHeight / inject_Z ROW_HEIGHT_PX)%Q
      using relation Qeq by (unfold Qdiv; ring).
    apply Qplus_le_compat; [| apply Qle_ceiling].
    apply Qlt_le_weak. rewrite <- inject_Z_plus. apply Qlt_floor. }
  assert (0 <= b) as Hb.
  { subst b. apply (Z.le_trans _ (Qceiling 0)); [reflexivity |].
    apply Qceiling_resp_le. apply Qle_shift_div_l; [apply rowHeight_positive |].
    rewrite Qmult_0_l. eapply Qle_trans; [| apply bodyHeight_min]. discriminate. }
  unfold OVERSCAN_ROWS. lia.
Qed.

(** X8. While the scroll offset is inside the table, the two spacers and
    the materialized rows add up to the height of the whole table. *)
Theorem spacers_keep_table_height
    (logs : list LogLine) (scrollTop viewportHeight : Q) :
  (0 <= scrollTop)%Q ->
  (scrollTop <= inject_Z (Z.of_nat (length logs) * ROW_HEIGHT_PX))%Q ->
  topSpacerHeight scrollTop
  + Z.of_nat (length (visibleRows logs scrollTop viewportHeight)) * ROW_HEIGHT_PX
  + bottomSpacerHeight (Z.of_nat (length logs)) scrollTop viewportHeight
  = Z.of_nat (length logs) * ROW_HEIGHT_PX.
Proof.
  intros Hlow Hhigh.
  rewrite rows_length. unfold topSpacerHeight, bottomSpacerHeight, visibleEnd, visibleStart.
  set (total := Z.of_nat (length logs)) in *.
  set (f := Qfloor (scrollTop / inject_Z ROW_HEIGHT_PX)).
  set (c := Qceiling ((scrollTop + bodyHeight viewportHeight)
                      / inject_Z ROW_HEIGHT_PX)).
  assert (0 <= f) as Hf0.
  { subst f. apply floor_ge. apply Qle_shift_div_l; [apply rowHeight_positive |].
    now rewrite Qmult_0_l. }
  assert (f <= total) as Hft.
  { subst f. rewrite <- (Qfloor_Z total). apply Qfloor_resp_le.
    apply Qle_shift_div_r; [apply rowHeight_positive |].
    now rewrite <- inject_Z_mult. }
  assert (f <= c) as Hfc.
  { subst f c. rewrite Zle_Qle.
    eapply Qle_trans; [apply Qfloor_le |].
    eapply Qle_trans; [| apply Qle_ceiling].
    apply Qle_shift_div_l; [apply rowHeight_positive |].
    setoid_replace (scrollTop / inject_Z ROW_HEIGHT_PX * inject_Z ROW_HEIGHT_PX)%Q
      with scrollTop using relation Qeq by (field; discriminate).
    rewrite <- (Qplus_0_r scrollTop) at 1.
    apply Qplus_le_compat; [apply Qle_refl |].
    eapply Qle_trans; [| apply bodyHeight_min]. discriminate. }
  unfold OVERSCAN_ROWS, ROW_HEIGHT_PX. lia.
Qed.

(** X28. For every scroll offset and viewport height the materialized rows
    are the rows of the window from [visibleStart] up to [visibleEnd], in
    increasing order, each numbered from 1 and carrying the frame at its
    index. *)
Theorem materialized_rows_are_the_window
    (logs : list LogLine) (scrollTop viewportHeight : Q) :
  map index (visibleRows logs scrollTop viewportHeight)
  = seqZ (visibleStart scrollTop)
      (visibleEnd (Z.of_nat (length logs)) scrollTop viewportHeight
       - visibleStart scrollTop) /\
  Forall (fun row => id row = index row + 1 /\
                     0 <= index row /\
                     logs !! Z.to_nat (index row) = Some (rowLine row))
         (visibleRows logs scrollTop viewportHeight).
Proof.
  split; [apply visibleRows_indices |].
  unfold visibleRows. apply list.Forall_forall. intros row Hrow.
  apply list_elem_of_omap in Hrow as (i & Hi & Hrow).
  apply elem_of_seqZ in Hi.
  assert (0 <= visibleStart scrollTop) by apply Z.le_max_l.
  destruct (logs !! Z.to_nat i) as [l |] eqn:El; [| discriminate].
  injection Hrow as <-. simpl. repeat split; [lia | exact El].
Qed.

End ViewportMore.

Section ViewStateProperties.
Import LogViewState.

(** X9. After the selection effect has run on a non-empty log, the selected
    index designates a frame of the log (given that it was not negative, as
    every index set by a click is): an index inside the log is left as it
    is, an index past the end becomes the index of the last frame, with the
    scroll position untouched; on an empty log the selection and the scroll
    position are back at 0. *)
Theorem selection_stays_inside_log (logs : list LogLine) (v : ViewState) :
  0 <= selectedIndex v ->
  let v' := selectionEffect (Z.of_nat (length logs)) v in
  (logs = [] -> selectedIndex v' = 0 /\ scrollTop v' = 0%Q) /\
  (logs <> [] -> is_Some (selected logs v')) /\
  (selectedIndex v < Z.of_nat (length logs) -> v' = v) /\
  (logs <> [] -> Z.of_nat (length logs) <= selectedIndex v ->
   selectedIndex v' = Z.of_nat (length logs) - 1 /\
   scrollTop v' = scrollTop v /\
   selected logs v' = last logs).
Proof.
  intros Hsel v'. subst v'. unfold selectionEffect.
  destruct (Z.eqb_spec (Z.of_nat (length logs)) 0) as [E | NE].
  - split; [now split |].
    assert (logs = []) as -> by (destruct logs; [reflexivity | simpl in E; lia]).
    split; [congruence |]. split; [simpl; lia | congruence].
  - split; [intros ->; simpl in NE; lia |].
    destruct (Z.geb_spec (selectedIndex v) (Z.of_nat (length logs))) as [Hge | Hlt].
    + assert (selected logs
                {| selectedIndex := Z.of_nat (length logs) - 1;
                   scrollTop := scrollTop v;
                   pendingScrollTop := pendingScrollTop v;
                   scrollRaf := scrollRaf v |} = last logs) as Hlast.
      { unfold selected; simpl.
        destruct (Z.ltb_spec (Z.of_nat (length logs) - 1) 0); [lia |].
        rewrite last_lookup. f_equal. lia. }
      split; [| split; [lia | now repeat split]].
      intros _. rewrite Hlast, last_lookup.
      apply lookup_lt_is_Some_2. lia.
    + split; [| split; [reflexivity | lia]]. intros _. unfold selected.
      destruct (Z.ltb_spec (selectedIndex v) 0); [lia |].
      apply lookup_lt_is_Some_2. lia.
Qed.

Lemma onScroll_burst (positions : list Q) : forall v,
  scrollTop (fold_left onScroll positions v) = scrollTop v /\
  selectedIndex (fold_left onScroll positions v) = selectedIndex v.
Proof.
  induction positions as [| p positions IH]; intros v; [now split |].
  simpl. destruct (IH (onScroll v p)) as [H1 H2]. rewrite H1, H2.
  unfold onScroll; simpl. now destruct (scrollRaf v).
Qed.

(** X10. Scroll events that arrive before the next animation frame do not
    change [scrollTop], whatever their number; one frame is requested, and
    its callback sets [scrollTop] to the position of the last event. *)
Theorem scroll_events_are_coalesced
    (v : ViewState) (positions : list Q) (last : Q) :
  let v' := fold_left onScroll (positions ++ [last]) v in
  scrollTop v' = scrollTop v /\
  scrollRaf v' = true /\
  scrollTop (onAnimationFrame v') = last /\
  scrollRaf (onAnimationFrame v') = false.
Proof.
  intros v'. subst v'. rewrite fold_left_app. simpl.
  destruct (onScroll_burst positions v) as [H _].
  set (v1 := fold_left onScroll positions v) in *.
  unfold onScroll; simpl. now destruct (scrollRaf v1).
Qed.

End ViewStateProperties.

Lemma visible_rows_are_materialized_witness :
  exists l,
    replicate 100 (textFrame "ok") !! Z.to_nat 20 = Some l /\
    {| LogView.id := 21; LogView.index := 20; LogView.rowLine := l |}
      ∈ LogView.visibleRows (replicate 100 (textFrame "ok")) 560 300.
Proof.
  apply (visible_rows_are_materialized (replicate 100 (textFrame "ok")) 560 300 20);
    [rewrite length_replicate; lia | reflexivity | reflexivity].
Defined.

Lemma spacers_keep_table_height_witness :
  LogView.topSpacerHeight 560
  + Z.of_nat (length (LogView.visibleRows (replicate 100 (textFrame "ok")) 560 300))
    * LogView.ROW_HEIGHT_PX
  + LogView.bottomSpacerHeight
      (Z.of_nat (length (replicate 100 (textFrame "ok")))) 560 300
  = Z.of_nat (length (replicate 100 (textFrame "ok"))) * LogView.ROW_HEIGHT_PX.
Proof.
  apply spacers_keep_table_height; [discriminate |].
  rewrite length_replicate. discriminate.
Defined.

Lemma selection_stays_inside_log_witness :
  LogViewState.selectedIndex
    (LogViewState.selectionEffect 2
       {| LogViewState.selectedIndex := 7; LogViewState.scrollTop := 56;
          LogViewState.pendingScrollTop := 56;
          LogViewState.scrollRaf := false |}) = 1 /\
  LogViewState.selected [textFrame "a"; textFrame "b"]
    (LogViewState.selectionEffect 2
       {| LogViewState.selectedIndex := 7; LogViewState.scrollTop := 56;
          LogViewState.pendingScrollTop := 56;
          LogViewState.scrollRaf := false |}) = Some (textFrame "b").
Proof.
  destruct (selection_stays_inside_log [textFrame "a"; textFrame "b"]
              {| LogViewState.selectedIndex := 7; LogViewState.scrollTop := 56;
                 LogViewState.pendingScrollTop := 56;
                 LogViewState.scrollRaf := false |})
    as (_ & _ & _ & H); [simpl; lia |].
  destruct H as (Hindex & _ & Hselected); [discriminate | simpl; lia |].
  split; [exact Hindex | exact Hselected].
Defined.

(** * More on the payload formatting and the session summary *)

Section SummaryProperties.
Import Format.

Lemma sumOf_from (numbers : list Z) : forall start,
  fold_left (fun sum value => sum + value) numbers start
  = start + Js.sumOf numbers.
Proof.
  unfold Js.sumOf.
  induction numbers as [| n numbers IH]; intros start; cbn [fold_left]; [lia |].
  rewrite (IH (start + n)), (IH (0 + n)). lia.
Qed.

Lemma sumOf_bounds (numbers : list Z) (lo hi : Z) :
  Forall (fun n => lo <= n <= hi) numbers ->
  Z.of_nat (length numbers) * lo <= Js.sumOf numbers
  <= Z.of_nat (length numbers) * hi.
Proof.
  induction 1 as [| n numbers Hn _ IH]; [unfold Js.sumOf; simpl; lia |].
  unfold Js.sumOf in *. simpl fold_left. rewrite sumOf_from. unfold Js.sumOf.
  rewrite length_cons. nia.
Qed.

(** Rounding a mean of integers stays between their bounds. *)
Lemma mathRound_mean (sum count lo hi : Z) :
  0 < count -> count * lo <= sum <= count * hi ->
  lo <= Js.mathRound (inject_Z sum / inject_Z count) <= hi.
Proof.
  intros Hc [Hlo Hhi]. unfold Js.mathRound.
  assert (0 < inject_Z count)%Q as Hq by (rewrite <- (Zlt_Qlt 0); exact Hc).
  assert (inject_Z lo <= inject_Z sum / inject_Z count)%Q as Hl.
  { apply Qle_shift_div_l; [exact Hq |].
    rewrite <- inject_Z_mult, <- Zle_Qle. lia. }
  assert (inject_Z sum / inject_Z count <= inject_Z hi)%Q as Hh.
  { apply Qle_shift_div_r; [exact Hq |].
    rewrite <- inject_Z_mult, <- Zle_Qle. lia. }
  split.
  - apply floor_ge. rewrite <- (Qplus_0_r (inject_Z lo)).
    apply Qplus_le_compat; [exact Hl | discriminate].
  - assert (Qfloor (inject_Z sum / inject_Z count + (1 # 2)) < hi + 1); [| lia].
    apply floor_lt. rewrite inject_Z_plus.
    apply Qle_lt_trans with (inject_Z hi + (1 # 2))%Q;
      [apply Qplus_le_l; exact Hh | apply Qplus_lt_r; reflexivity].
Qed.

(** X11. The average interval of the summary is taken over the frames after
    the first one and lies between the smallest and the largest of their
    intervals; with fewer than two frames it is 0. *)
Theorem avgGap_between_extremes (logs : list LogLine) (lo hi : Z) :
  Forall (fun line => lo <= interval_ms line <= hi) (tail logs) ->
  (tail logs = [] -> avgGap (summarizeLogs logs) = 0) /\
  (tail logs <> [] -> lo <= avgGap (summarizeLogs logs) <= hi).
Proof.
  intros Hbounds. unfold summarizeLogs; cbn [avgGap].
  assert (Js.slice logs 1 = tail logs) as ->.
  { unfold Js.slice. destruct logs as [| x logs]; [reflexivity |].
    cbn [Z.ltb Z.compare]. rewrite length_cons.
    replace (Z.to_nat (Z.min 1 (Z.of_nat (S (length logs))))) with 1%nat by lia.
    reflexivity. }
  rewrite length_map. split.
  - intros ->. reflexivity.
  - intros Hne.
    destruct (Z.eqb_spec (Z.of_nat (length (tail logs))) 0) as [E | NE].
    { destruct (tail logs); [congruence | simpl in E; lia]. }
    apply mathRound_mean; [lia |].
    rewrite <- (length_map interval_ms). apply sumOf_bounds.
    now rewrite Forall_map.
Qed.

Lemma countDir_app d (a b : list LogLine) :
  countDir d (a ++ b) = countDir d a + countDir d b.
Proof. unfold countDir. rewrite List.filter_app, length_app. lia. Qed.

Lemma totalBytes_from (logs : list LogLine) : forall start,
  fold_left (fun sum line => sum + Z.of_nat (length (raw line))) logs start
  = start + totalBytes (summarizeLogs logs).
Proof.
  unfold summarizeLogs; cbn [totalBytes].
  induction logs as [| l logs IH]; intros start; cbn [fold_left]; [lia |].
  rewrite (IH (start + _)), (IH (0 + _)). lia.
Qed.

Lemma rx_tx_le_total (logs : list LogLine) :
  countDir "RX" logs + countDir "TX" logs <= Z.of_nat (length logs).
Proof.
  unfold countDir. induction logs as [| l logs IH]; simpl; [lia |].
  destruct (String.eqb_spec (dir l) "RX") as [E | _].
  - rewrite E. simpl. lia.
  - destruct (String.eqb (dir l) "TX"); simpl; lia.
Qed.

(** X12. The counters of the summary add up over concatenation: the frame,
    RX, TX and byte counts of [a ++ b] are the sums of those of [a] and of
    [b]; and the RX and TX counts together never exceed the frame count. *)
Theorem summary_counts_are_additive (a b : list LogLine) :
  total (summarizeLogs (a ++ b)) = total (summarizeLogs a) + total (summarizeLogs b) /\
  rx (summarizeLogs (a ++ b)) = rx (summarizeLogs a) + rx (summarizeLogs b) /\
  tx (summarizeLogs (a ++ b)) = tx (summarizeLogs a) + tx (summarizeLogs b) /\
  totalBytes (summarizeLogs (a ++ b))
  = totalBytes (summarizeLogs a) + totalBytes (summarizeLogs b) /\
  rx (summarizeLogs a) + tx (summarizeLogs a) <= total (summarizeLogs a).
Proof.
  split; [cbn [summarizeLogs total]; rewrite length_app; lia |].
  split; [apply countDir_app |]. split; [apply countDir_app |].
  split; [| apply rx_tx_le_total].
  unfold summarizeLogs at 1; cbn [totalBytes].
  rewrite fold_left_app, totalBytes_from.
  unfold summarizeLogs at 1; cbn [totalBytes]. reflexivity.
Qed.

End SummaryProperties.

Section AsciiProperties.
Import Format.

Lemma chars_app (a b : string) : Js.chars (a +:+ b) = Js.chars a ++ Js.chars b.
Proof.
  induction a as [| x a IH]; [reflexivity |].
  rewrite append_cons. simpl. now rewrite IH.
Qed.

Lemma flatMapChars_Forall (P Q : ascii -> Prop) f (s : string) :
  (forall c, Q c -> Forall P (Js.chars (f c))) ->
  Forall Q (Js.chars s) -> Forall P (Js.chars (Js.flatMapChars f s)).
Proof.
  intros Hf. induction s as [| c s IH]; intros Hs; [constructor |].
  simpl in Hs. apply Forall_cons in Hs as [Hc Hs].
  cbn [Js.flatMapChars]. rewrite chars_app. apply Forall_app.
  split; [now apply Hf | now apply IH].
Qed.

Lemma flatMapChars_id f (s : string) :
  Forall (fun c => f c = String c EmptyString) (Js.chars s) ->
  Js.flatMapChars f s = s.
Proof.
  induction s as [| c s IH]; intros Hs; [reflexivity |].
  simpl in Hs. apply Forall_cons in Hs as [Hc Hs].
  cbn [Js.flatMapChars]. now rewrite Hc, IH.
Qed.

Lemma replaceAll_CRLF_id (replacement s : string) :
  Forall (fun c => c <> crChar) (Js.chars s) ->
  Js.replaceAll s CRLF replacement = s.
Proof.
  change (Js.replaceAll s CRLF replacement)
    with (Js.replaceAllFrom 0 s CRLF replacement).
  induction s as [| c s IH]; intros Hs; [reflexivity |].
  simpl in Hs. apply Forall_cons in Hs as [Hc Hs].
  rewrite replaceAll_CRLF_cons.
  destruct (Ascii.eqb_spec c crChar) as [E | _]; [congruence |].
  destruct s as [| d s]; [reflexivity |]. cbn [andb]. now rewrite IH.
Qed.

(** X13. The payload column never contains a carriage return or a line
    feed, whatever the text; a text without them is shown as it is. *)
Theorem ascii_payload_has_no_line_end (raw : list Z) (text : string) :
  Forall (fun c => c <> crChar /\ c <> lfChar)
         (Js.chars (formatPayload raw ViewAscii text)) /\
  (Forall (fun c => c <> crChar /\ c <> lfChar) (Js.chars text) ->
   formatPayload raw ViewAscii text = text).
Proof.
  unfold formatPayload, LF, CR. rewrite !replaceAll_single. split.
  - apply (flatMapChars_Forall _ (fun c => c <> lfChar)).
    + intros c Hc. destruct (Ascii.eqb_spec c crChar) as [-> | NE].
      * repeat constructor; discriminate.
      * repeat constructor; assumption.
    + apply (flatMapChars_Forall _ (fun _ => True)).
      * intros c _. destruct (Ascii.eqb_spec c lfChar) as [-> | NE].
        -- repeat constructor; discriminate.
        -- repeat constructor; assumption.
      * apply Forall_forall. trivial.
  - intros Hclean.
    rewrite replaceAll_CRLF_id
      by (eapply Forall_impl; [exact Hclean | now intros c [H _]]).
    rewrite (flatMapChars_id _ text).
    + apply flatMapChars_id. eapply Forall_impl; [exact Hclean |].
      intros c [H _]. now destruct (Ascii.eqb_spec c crChar).
    + eapply Forall_impl; [exact Hclean |].
      intros c [_ H]. now destruct (Ascii.eqb_spec c lfChar).
Qed.

End AsciiProperties.

Lemma avgGap_between_extremes_witness :
  10 <= Format.avgGap
          (Format.summarizeLogs
             [textFrame "a";
              {| when_iso := ""; interval_ms := 10; dir := "RX"; origin := "";
                 text := "b"; raw := [1; 2]; connId := "main" |};
              {| when_iso := ""; interval_ms := 15; dir := "TX"; origin := "";
                 text := "c"; raw := [3]; connId := "main" |}]) <= 15.
Proof.
  apply avgGap_between_extremes; [| discriminate].
  repeat constructor; simpl; lia.
Defined.

Lemma ascii_payload_has_no_line_end_witness :
  Format.formatPayload [] ViewAscii "plain text" = "plain text".
Proof.
  apply ascii_payload_has_no_line_end.
  repeat constructor; discriminate.
Defined.

(** * More on the single-file application *)

Section LegacyFilterMore.
Import Legacy.
Context {engine : Js.RegExpEngine}.

Lemma List_filter_sublist {A} (P : A -> bool) (l : list A) :
  sublist (List.filter P l) l.
Proof.
  induction l as [| x l IH]; simpl; [constructor |].
  destruct (P x); now constructor.
Qed.

Lemma List_filter_Forall {A} (P : A -> bool) (l : list A) :
  Forall (fun x => P x = true) (List.filter P l).
Proof.
  induction l as [| x l IH]; simpl; [constructor |].
  destruct (P x) eqn:E; [now constructor | assumption].
Qed.

Lemma filterByTest_sublist (frames : list LogLine) : forall re,
  sublist (filterByTest re frames) frames.
Proof.
  induction frames as [| l frames IH]; intros re; simpl; [constructor |].
  destruct (Js.regexpTest re (text l)) as [ok re'].
  destruct ok; constructor; apply IH.
Qed.

Lemma sublist_keeps_Forall {A} (P : A -> Prop) (l1 l2 : list A) :
  sublist l1 l2 -> Forall P l2 -> Forall P l1.
Proof.
  induction 1 as [| x l1 l2 _ IH | x l1 l2 _ IH]; intros H;
    [constructor | |]; apply Forall_cons in H as [Hx H].
  - constructor; [assumption | now apply IH].
  - now apply IH.
Qed.

(** X14. Whatever the filter text, the mode and the regular expression
    engine, the [filtered] memo is a sublist of the log (no frame added,
    repeated or moved) and holds frames of the active scope only. *)
Theorem filtered_is_sublist_in_scope
    (logs : list LogLine) (filter : string) (useRegex : bool) (scope : string) :
  sublist (filtered logs filter useRegex scope) logs /\
  Forall (fun l => inScope scope l = true) (filtered logs filter useRegex scope).
Proof.
  assert (sublist (filtered logs filter useRegex scope)
                  (List.filter (inScope scope) logs)) as Hsub.
  { unfold filtered. destruct filter as [| c rest]; [reflexivity |].
    destruct useRegex.
    - destruct (Js.newRegExp (String c rest) "i"); [| reflexivity].
      apply filterByTest_sublist.
    - apply List_filter_sublist. }
  split.
  - etransitivity; [exact Hsub | apply List_filter_sublist].
  - eapply sublist_keeps_Forall; [exact Hsub | apply List_filter_Forall].
Qed.



End LegacyFilterMore.

Section LegacyMarkup.
Import Legacy.

(** X16. [showNL] renders a carriage return followed by a line feed as the
    one CRLF span, with the text before and after the pair rendered on its
    own. *)
Theorem showNL_marks_crlf_once (before after : string) :
  showNL (before +:+ Format.CRLF +:+ after)
  = showNL before +:+ SPAN_CRLF +:+ showNL after.
Proof.
  unfold showNL. rewrite replaceAll_CRLF_app.
  unfold Format.LF, Format.CR. rewrite !replaceAll_single_app. reflexivity.
Qed.

(** X17. The output of [escapeHtml] contains neither [<] nor [>], and a text
    without [&], [<] and [>] is returned as it is. *)
Theorem escapeHtml_removes_angle_brackets (s : string) :
  Forall (fun c => c <> ltChar /\ c <> gtChar) (Js.chars (escapeHtml s)) /\
  (Forall (fun c => c <> ampChar /\ c <> ltChar /\ c <> gtChar) (Js.chars s) ->
   escapeHtml s = s).
Proof.
  unfold escapeHtml. rewrite !replaceAll_single. split.
  - apply (flatMapChars_Forall _ (fun c => c <> ltChar)).
    + intros c Hc. destruct (Ascii.eqb_spec c ">") as [-> | NE].
      * repeat constructor; discriminate.
      * repeat constructor; assumption.
    + apply (flatMapChars_Forall _ (fun _ => True)).
      * intros c _. destruct (Ascii.eqb_spec c "<") as [-> | NE].
        -- repeat constructor; discriminate.
        -- repeat constructor; assumption.
      * apply Forall_forall. trivial.
  - intros Hclean.
    rewrite (flatMapChars_id _ s).
    + rewrite (flatMapChars_id _ s).
      * apply flatMapChars_id. eapply Forall_impl; [exact Hclean |].
        intros c (_ & _ & H). now destruct (Ascii.eqb_spec c ">").
      * eapply Forall_impl; [exact Hclean |].
        intros c (_ & H & _). now destruct (Ascii.eqb_spec c "<").
    + eapply Forall_impl; [exact Hclean |].
      intros c (H & _ & _). now destruct (Ascii.eqb_spec c "&").
Qed.

End LegacyMarkup.

Section LegacyStats.
Import Legacy.

Lemma mathMax_from (rest : list Z) : forall first,
  first <= Js.mathMax first rest /\
  Forall (fun n => n <= Js.mathMax first rest) rest.
Proof.
  unfold Js.mathMax.
  induction rest as [| n rest IH]; intros first; simpl; [split; [lia | constructor] |].
  destruct (IH (Z.max first n)) as [H1 H2]. split; [lia |].
  constructor; [lia | exact H2].
Qed.

Lemma slice_1_tail {A} (l : list A) : Js.slice l 1 = tail l.
Proof.
  unfold Js.slice. destruct l as [| x l]; [reflexivity |].
  cbn [Z.ltb Z.compare]. rewrite length_cons.
  replace (Z.to_nat (Z.min 1 (Z.of_nat (S (length l))))) with 1%nat by lia.
  reflexivity.
Qed.

(** X18. In the session statistics the maximum interval is at least every
    interval of the frames after the first one, and the rounded average
    interval never exceeds it. *)
Theorem stats_average_below_maximum (logs : list LogLine) :
  Forall (fun l => interval_ms l <= maxInterval (useStats logs)) (tail logs) /\
  avgInterval (useStats logs) <= maxInterval (useStats logs).
Proof.
  unfold useStats.
  destruct (Z.eqb_spec (Z.of_nat (length logs)) 0) as [E | NE].
  { destruct logs; [| simpl in E; lia]. split; [constructor | reflexivity]. }
  cbn [maxInterval avgInterval]. rewrite slice_1_tail.
  destruct (tail logs) as [| first rest] eqn:Etail.
  - split; [constructor | reflexivity].
  - cbn [map]. destruct (mathMax_from (map interval_ms rest) (interval_ms first))
      as [Hfirst Hrest].
    set (m := Js.mathMax (interval_ms first) (map interval_ms rest)) in *.
    assert (Forall (fun n => n <= m) (interval_ms first :: map interval_ms rest))
      as Hall by (constructor; assumption).
    split.
    + constructor; [exact Hfirst |]. now rewrite Forall_map in Hrest.
    + set (intervals := interval_ms first :: map interval_ms rest) in *.
      destruct (Z.ltb_spec 0 (Z.of_nat (length intervals))) as [Hpos | Hzero];
        [| simpl in Hzero; lia].
      enough (- Z.abs (Js.sumOf intervals)
              <= Js.mathRound (inject_Z (Js.sumOf intervals)
                               / inject_Z (Z.of_nat (length intervals))) <= m)
        by lia.
      apply mathRound_mean; [exact Hpos |]. split; [nia |].
      clear -Hall. induction Hall as [| n l Hn _ IH]; [unfold Js.sumOf; simpl; lia |].
      unfold Js.sumOf in *. cbn [fold_left]. rewrite sumOf_from.
      unfold Js.sumOf. rewrite length_cons. nia.
Qed.

End LegacyStats.

Section LegacyExport.
Import Legacy.

Lemma splitOn_clean (separator : ascii) (piece : string) :
  Forall (fun c => c <> separator) (Js.chars piece) ->
  Js.splitOn separator piece = [piece].
Proof.
  induction piece as [| c piece IH]; intros H; [reflexivity |].
  simpl in H. apply Forall_cons in H as [Hc H]. simpl.
  destruct (Ascii.eqb_spec c separator); [congruence |]. now rewrite IH.
Qed.

Lemma splitOn_first (separator : ascii) (piece rest : string) :
  Forall (fun c => c <> separator) (Js.chars piece) ->
  Js.splitOn separator (piece +:+ String separator rest)
  = piece :: Js.splitOn separator rest.
Proof.
  induction piece as [| c piece IH]; intros H.
  - simpl. now rewrite Ascii.eqb_refl.
  - simpl in H. apply Forall_cons in H as [Hc H].
    rewrite append_cons. simpl.
    destruct (Ascii.eqb_spec c separator); [congruence |]. now rewrite IH.
Qed.

(** Splitting undoes joining when no piece contains the separator. *)
Lemma splitOn_join (separator : ascii) (pieces : list string) :
  pieces <> [] ->
  Forall (fun piece => Forall (fun c => c <> separator) (Js.chars piece)) pieces ->
  Js.splitOn separator (Js.join (String separator EmptyString) pieces) = pieces.
Proof.
  intros Hne Hclean. induction Hclean as [| p pieces Hp Hrest IH]; [congruence |].
  destruct pieces as [| q pieces].
  - simpl. now apply splitOn_clean.
  - change (Js.join (String separator EmptyString) (p :: q :: pieces))
      with (p +:+ String separator (Js.join (String separator EmptyString) (q :: pieces))).
    rewrite splitOn_first by assumption. f_equal. now apply IH.
Qed.

Lemma byte_digits_checked :
  forallb (fun b => negb (Ascii.eqb (Format.upperHexDigit (b / 16)) Format.lfChar)
                    && negb (Ascii.eqb (Format.upperHexDigit (b mod 16)) Format.lfChar))
          (seqZ 0 256) = true.
Proof. vm_compute. reflexivity. Qed.

Lemma hex_line_has_no_line_feed (raw : list Z) :
  Forall (fun b => 0 <= b <= 255) raw ->
  Forall (fun c => c <> Format.lfChar)
         (Js.chars (Js.join " " (map Format.twoHexDigits raw))).
Proof.
  induction 1 as [| b raw Hb Hraw IH]; [constructor |].
  assert (Forall (fun c => c <> Format.lfChar) (Js.chars (Format.twoHexDigits b)))
    as Hdigits.
  { pose proof byte_digits_checked as H. rewrite forallb_forall in H.
    specialize (H b). rewrite andb_true_iff, !negb_true_iff in H.
    destruct H as [H1 H2]; [apply list_elem_of_In, elem_of_seqZ; lia |].
    unfold Format.twoHexDigits. simpl. repeat constructor.
    - intros E. rewrite E, Ascii.eqb_refl in H1. discriminate.
    - intros E. rewrite E, Ascii.eqb_refl in H2. discriminate. }
  destruct raw as [| b' raw]; [exact Hdigits |].
  change (Js.join " " (map Format.twoHexDigits (b :: b' :: raw)))
    with (Format.twoHexDigits b
          +:+ String " " (Js.join " " (map Format.twoHexDigits (b' :: raw)))).
  rewrite chars_app. apply Forall_app. split; [exact Hdigits |].
  simpl. constructor; [discriminate | exact IH].
Qed.

(** X19. The text written by the hex dump export can be read back: for a
    non-empty log of frames with bytes in 0..255 it has one line per frame,
    in order, and the hex pairs of each line give the frame's bytes. *)
Theorem hex_dump_round_trip (logs : list LogLine) :
  logs <> [] ->
  Forall (fun l => Forall (fun b => 0 <= b <= 255) (raw l)) logs ->
  parseHexDump (hexDumpText logs) = map (fun l => Some (raw l)) logs.
Proof.
  intros Hne Hbytes. unfold parseHexDump, hexDumpText, Format.LF.
  rewrite splitOn_join.
  - rewrite map_map. apply map_ext_Forall.
    eapply Forall_impl; [exact Hbytes |]. intros l Hl. simpl.
    change (fmtHex (raw l)) with (Format.formatPayload (raw l) ViewHex EmptyString).
    rewrite formatPayload_hex_digits by assumption.
    now apply parseHexPairs_join.
  - destruct logs; [congruence | discriminate].
  - rewrite Forall_map. eapply Forall_impl; [exact Hbytes |].
    intros l Hl. simpl.
    change (fmtHex (raw l)) with (Format.formatPayload (raw l) ViewHex EmptyString).
    rewrite formatPayload_hex_digits by assumption.
    now apply hex_line_has_no_line_feed.
Qed.

(** The dump of an empty log is the empty text, which reads back as one
    frame without bytes. *)
Example hex_dump_of_nothing :
  hexDumpText [] = EmptyString /\ parseHexDump EmptyString = [Some []].
Proof. split; reflexivity. Qed.

End LegacyExport.

Section LegacyTabs.
Import Legacy.

Lemma switch_ids (shown : list ConnectionTab) (id : string) :
  map tabId (connectionTabs (switchConnectionTab shown id)) = map tabId shown.
Proof. unfold switchConnectionTab; simpl. rewrite map_map. reflexivity. Qed.

(** X20. Closing the active tab does not remove it: when the handler
    returns, the list has the same tabs in the same order and only the
    active flags and the active connection differ (the list set by
    [switchConnectionTab] replaces the shortened one). Closing another tab
    removes every tab with that id and leaves the active connection as it
    was. *)
Theorem closing_active_tab_keeps_it (st st' : Tabs) (id : string) :
  closeConnectionTab st id = Returned st' ->
  (activeConnId st = id ->
   map tabId (connectionTabs st') = map tabId (connectionTabs st)) /\
  (activeConnId st <> id -> length (connectionTabs st) <> 1%nat ->
   connectionTabs st'
   = List.filter (fun t => negb (String.eqb (tabId t) id)) (connectionTabs st) /\
   activeConnId st' = activeConnId st).
Proof.
  unfold closeConnectionTab. intros H.
  destruct (Z.eqb_spec (Z.of_nat (length (connectionTabs st))) 1) as [E | NE].
  { injection H as <-. split; [reflexivity | lia]. }
  destruct (String.eqb_spec (activeConnId st) id) as [Ha | Hna].
  - split; [| congruence]. intros _.
    destruct (List.filter _ (connectionTabs st)) as [| first rest];
      [discriminate |].
    injection H as <-. apply switch_ids.
  - injection H as <-. split; [congruence | now split].
Qed.

(** X21. If the active connection is the id of a listed tab, it still is
    after any close that returns: the scope of the log filter always names a
    tab of the list. *)
Theorem active_connection_stays_listed (st st' : Tabs) (id : string) :
  In (activeConnId st) (map tabId (connectionTabs st)) ->
  closeConnectionTab st id = Returned st' ->
  In (activeConnId st') (map tabId (connectionTabs st')).
Proof.
  intros Hin H. unfold closeConnectionTab in H.
  destruct (Z.of_nat (length (connectionTabs st)) =? 1); [now injection H as <- |].
  destruct (String.eqb_spec (activeConnId st) id) as [Ha | Hna].
  - destruct (List.filter _ (connectionTabs st)) as [| first rest] eqn:E;
      [discriminate |].
    injection H as <-. rewrite switch_ids. simpl.
    assert (In first (List.filter (fun t => negb (String.eqb (tabId t) id))
                        (connectionTabs st))) as Hf by (rewrite E; now left).
    apply filter_In in Hf as [Hf _]. now apply in_map.
  - injection H as <-. simpl.
    apply in_map_iff in Hin as (t & Ht & Hin).
    apply in_map_iff. exists t. split; [exact Ht |].
    apply filter_In. split; [exact Hin |].
    rewrite Ht. now destruct (String.eqb_spec (activeConnId st) id).
Qed.

End LegacyTabs.

(** The closed examples below run on the stand-in engine. *)
#[local] Existing Instance Legacy.PlainRegExp.engine.


Lemma escapeHtml_removes_angle_brackets_witness :
  Legacy.escapeHtml "plain" = "plain".
Proof.
  apply escapeHtml_removes_angle_brackets. repeat constructor; discriminate.
Defined.

Lemma hex_dump_round_trip_witness :
  Legacy.parseHexDump
    (Legacy.hexDumpText
       [{| when_iso := ""; interval_ms := 0; dir := "RX"; origin := "";
           text := ""; raw := [72; 105]; connId := "main" |};
        {| when_iso := ""; interval_ms := 4; dir := "TX"; origin := "";
           text := ""; raw := [255]; connId := "main" |}])
  = [Some [72; 105]; Some [255]].
Proof.
  apply (hex_dump_round_trip
           [{| when_iso := ""; interval_ms := 0; dir := "RX"; origin := "";
               text := ""; raw := [72; 105]; connId := "main" |};
            {| when_iso := ""; interval_ms := 4; dir := "TX"; origin := "";
               text := ""; raw := [255]; connId := "main" |}]);
    [discriminate | repeat constructor; simpl; lia].
Defined.

Lemma closing_active_tab_keeps_it_witness :
  Legacy.closeConnectionTab Legacy.twoTabs "main"
  = Legacy.Returned
      (Legacy.switchConnectionTab (Legacy.connectionTabs Legacy.twoTabs) "socket-1") /\
  map Legacy.tabId
    (Legacy.connectionTabs
       (Legacy.switchConnectionTab (Legacy.connectionTabs Legacy.twoTabs) "socket-1"))
  = ["main"; "socket-1"].
Proof.
  split; [reflexivity |].
  exact (proj1 (closing_active_tab_keeps_it Legacy.twoTabs
                  (Legacy.switchConnectionTab
                     (Legacy.connectionTabs Legacy.twoTabs) "socket-1")
                  "main" eq_refl) eq_refl).
Defined.

Lemma active_connection_stays_listed_witness :
  In "main"
     (map Legacy.tabId
        (List.filter (fun t => negb (String.eqb (Legacy.tabId t) "socket-1"))
           (Legacy.connectionTabs Legacy.twoTabs))).
Proof.
  exact (active_connection_stays_listed Legacy.twoTabs
           {| Legacy.connectionTabs :=
                List.filter (fun t => negb (String.eqb (Legacy.tabId t) "socket-1"))
                  (Legacy.connectionTabs Legacy.twoTabs);
              Legacy.activeConnId := "main" |}
           "socket-1" (or_introl eq_refl) eq_refl).
Defined.

(** * More on the persisted settings *)

Section SettingsRoundTrip.
Import Settings.

Lemma union_absorbs (m d : gmap string json) : dom d ⊆ dom m -> m ∪ d = m.
Proof.
  intros Hdom. apply map_eq. intros k. rewrite lookup_union.
  destruct (m !! k) as [v |] eqn:E; [now destruct (d !! k) |].
  assert (d !! k = None) as ->; [| reflexivity].
  apply not_elem_of_dom. intros Hk. apply Hdom in Hk.
  now apply not_elem_of_dom in E.
Qed.

(** X22. With a storage area that keeps what it is given and a [JSON] that
    reads back what it wrote, a complete settings record that is saved is
    the record that is loaded next. *)
Theorem saved_settings_are_loaded
    (rt : Runtime) (storage storage' : gmap string string) (serialized : string)
    (settings serial socket : gmap string json) :
  settings !! "serial" = Some (JObj serial) ->
  settings !! "socket" = Some (JObj socket) ->
  dom defaultSettings ⊆ dom settings ->
  dom defaultSerial ⊆ dom serial ->
  dom defaultSocket ⊆ dom socket ->
  JSON_stringify rt (JObj settings) = Normal serialized ->
  serialized <> EmptyString ->
  setItem rt storage SETTINGS_KEY serialized = Normal storage' ->
  getItem rt storage' SETTINGS_KEY = Normal (Some serialized) ->
  JSON_parse rt serialized = Normal (JObj settings) ->
  saveSettings rt storage (JObj settings) = Normal storage' /\
  loadSettings rt storage' = Normal (JObj settings).
Proof.
  intros Hserial Hsocket Hdom Hdser Hdsock Hstr Hne Hset Hget Hparse. split.
  - unfold saveSettings. rewrite Hstr; cbn. now rewrite Hset.
  - unfold loadSettings. rewrite Hget; cbn.
    destruct serialized as [| c rest]; [congruence |].
    rewrite Hparse; cbn. rewrite Hserial, Hsocket; cbn.
    unfold spread. rewrite !union_absorbs by assumption.
    now rewrite (insert_id settings "serial"), (insert_id settings "socket").
Qed.

End SettingsRoundTrip.

Section LegacySettingsProperties.
Import Settings LegacySettings.

Lemma legacy_loaded_has_defaults (rt : Runtime) (storage : gmap string string) :
  loadSettings rt storage ∪ defaultSettings = loadSettings rt storage.
Proof.
  unfold loadSettings.
  destruct (getItem rt storage SETTINGS_KEY) as [[saved |] | e]; cbn;
    try apply (idemp_L (∪)).
  destruct saved as [| c rest]; [apply (idemp_L (∪)) |].
  destruct (JSON_parse rt (String c rest)) as [parsed | e]; cbn;
    [| apply (idemp_L (∪))].
  unfold spread. now rewrite <- (assoc_L (∪)), (idemp_L (∪)).
Qed.

(** X23. In the single-file application a save is a read-modify-write: with
    a storage area that keeps what it is given and a [JSON] that reads back
    what it wrote, the settings loaded after [saveSettings(update)] are the
    settings loaded before it, overridden by the fields of [update]. *)
Theorem legacy_save_overrides_loaded_fields
    (rt : Runtime) (storage storage' : gmap string string) (serialized : string)
    (update : gmap string json) :
  let updated := spread (loadSettings rt storage) update in
  JSON_stringify rt (JObj updated) = Normal serialized ->
  serialized <> EmptyString ->
  setItem rt storage SETTINGS_KEY serialized = Normal storage' ->
  getItem rt storage' SETTINGS_KEY = Normal (Some serialized) ->
  JSON_parse rt serialized = Normal (JObj updated) ->
  saveSettings rt storage update = storage' /\
  loadSettings rt storage' = update ∪ loadSettings rt storage.
Proof.
  intros updated Hstr Hne Hset Hget Hparse. split.
  - unfold saveSettings. fold updated. rewrite Hstr; cbn. now rewrite Hset.
  - unfold loadSettings at 1. rewrite Hget; cbn.
    destruct serialized as [| c rest]; [congruence |].
    rewrite Hparse; cbn. subst updated. unfold spread.
    now rewrite <- (assoc_L (∪)), legacy_loaded_has_defaults.
Qed.

(** X24. Whatever the storage holds and however the runtime's calls end,
    the settings loaded by the single-file application are the fields of the
    stored record over the defaults: every default field is present, a
    field of the stored record has the stored value, and a field that the
    stored record lacks has its default value. *)
Theorem legacy_settings_over_defaults
    (rt : Runtime) (storage : gmap string string) :
  loadSettings rt storage = storedRecord rt storage ∪ defaultSettings /\
  dom defaultSettings ⊆ dom (loadSettings rt storage) /\
  (forall name value,
      storedRecord rt storage !! name = Some value ->
      loadSettings rt storage !! name = Some value) /\
  (forall name,
      storedRecord rt storage !! name = None ->
      loadSettings rt storage !! name = defaultSettings !! name).
Proof.
  assert (loadSettings rt storage = storedRecord rt storage ∪ defaultSettings)
    as Hs.
  { unfold loadSettings, storedRecord.
    destruct (getItem rt storage SETTINGS_KEY) as [[saved |] | e]; cbn;
      try (now rewrite (left_id_L ∅ (∪))).
    destruct saved as [| c rest]; [now rewrite (left_id_L ∅ (∪)) |].
    destruct (JSON_parse rt (String c rest)) as [parsed | e]; cbn;
      [reflexivity | now rewrite (left_id_L ∅ (∪))]. }
  rewrite Hs. split; [reflexivity |]. split; [| split].
  - rewrite dom_union. intros k Hk. apply elem_of_union. now right.
  - intros name value Hstored. now apply lookup_union_Some_l.
  - intros name Hmissing. now apply lookup_union_r.
Qed.

End LegacySettingsProperties.

Lemma saved_settings_are_loaded_witness :
  Settings.saveSettings
    (Settings.memoryRuntime "saved" (Settings.JObj Settings.customSettings))
    ∅ (Settings.JObj Settings.customSettings)
  = Settings.Normal (<[Settings.SETTINGS_KEY := "saved"]> ∅) /\
  Settings.loadSettings
    (Settings.memoryRuntime "saved" (Settings.JObj Settings.customSettings))
    (<[Settings.SETTINGS_KEY := "saved"]> ∅)
  = Settings.Normal (Settings.JObj Settings.customSettings) /\
  Settings.customSettings !! "viewMode" = Some (Settings.JStr "hex") /\
  Settings.customSerial !! "baud" = Some (Settings.JNum 9600) /\
  Settings.customSettings <> Settings.defaultSettings.
Proof.
  assert (Settings.customSettings !! "viewMode" = Some (Settings.JStr "hex"))
    as Hview by reflexivity.
  destruct (saved_settings_are_loaded
              (Settings.memoryRuntime "saved" (Settings.JObj Settings.customSettings))
              ∅ (<[Settings.SETTINGS_KEY := "saved"]> ∅) "saved"
              Settings.customSettings Settings.customSerial Settings.defaultSocket)
    as [Hsave Hload]; try reflexivity; try discriminate.
  split; [exact Hsave |]. split; [exact Hload |]. split; [exact Hview |].
  split; [reflexivity |].
  intros E. rewrite E in Hview. discriminate.
Defined.

Lemma legacy_save_overrides_loaded_fields_witness :
  LegacySettings.loadSettings
    (Settings.memoryRuntime "saved"
       (Settings.JObj
          (<["filter" := Settings.JStr "ERR"]> LegacySettings.defaultSettings)))
    (<[LegacySettings.SETTINGS_KEY := "saved"]> ∅)
  = <["filter" := Settings.JStr "ERR"]> ∅
    ∪ LegacySettings.loadSettings
        (Settings.memoryRuntime "saved"
           (Settings.JObj
              (<["filter" := Settings.JStr "ERR"]> LegacySettings.defaultSettings)))
        ∅.
Proof.
  apply (legacy_save_overrides_loaded_fields
           (Settings.memoryRuntime "saved"
              (Settings.JObj
                 (<["filter" := Settings.JStr "ERR"]> LegacySettings.defaultSettings)))
           ∅ (<[LegacySettings.SETTINGS_KEY := "saved"]> ∅) "saved"
           (<["filter" := Settings.JStr "ERR"]> ∅));
    try reflexivity; discriminate.
Defined.

Lemma legacy_settings_over_defaults_witness :
  LegacySettings.loadSettings
    (Settings.memoryRuntime "saved"
       (Settings.JObj (<["filter" := Settings.JStr "ERR"]> ∅)))
    (<[LegacySettings.SETTINGS_KEY := "saved"]> ∅) !! "filter"
  = Some (Settings.JStr "ERR") /\
  LegacySettings.loadSettings
    (Settings.memoryRuntime "saved"
       (Settings.JObj (<["filter" := Settings.JStr "ERR"]> ∅)))
    (<[LegacySettings.SETTINGS_KEY := "saved"]> ∅) !! "viewMode"
  = Some (Settings.JStr "ascii").
Proof.
  destruct (legacy_settings_over_defaults
              (Settings.memoryRuntime "saved"
                 (Settings.JObj (<["filter" := Settings.JStr "ERR"]> ∅)))
              (<[LegacySettings.SETTINGS_KEY := "saved"]> ∅))
    as (_ & _ & Hstored & Hmissing).
  split; [apply Hstored; reflexivity |].
  rewrite Hmissing; reflexivity.
Defined.

(** * Properties of the serial panel *)

Section SerialPanelProperties.
Import SerialPanel.

Lemma splitOn_head (separator : ascii) (s : string) :
  exists name pieces,
    Js.splitOn separator s = name :: pieces /\
    Forall (fun c => c <> separator) (Js.chars name) /\
    (s = name \/ exists rest, s = name +:+ String separator rest).
Proof.
  induction s as [| c s (name & pieces & Hsplit & Hclean & Hshape)].
  - exists EmptyString, []. repeat split; [constructor | now left].
  - simpl. destruct (Ascii.eqb_spec c separator) as [-> | NE].
    + exists EmptyString, (Js.splitOn separator s).
      repeat split; [constructor | right; now exists s].
    + rewrite Hsplit. exists (String c name), pieces.
      split; [reflexivity |]. split; [now constructor |].
      destruct Hshape as [-> | [rest ->]]; [now left | right; now exists rest].
Qed.

(** X25. The port name taken from a list entry is the part of the entry
    before its first space: it contains no space, and the entry is the name
    alone or the name, a space and the rest. *)
Theorem parsePortName_is_first_word (raw : string) :
  Forall (fun c => c <> spaceChar) (Js.chars (parsePortName raw)) /\
  (raw = parsePortName raw \/
   exists rest, raw = parsePortName raw +:+ " " +:+ rest).
Proof.
  unfold parsePortName.
  destruct (splitOn_head spaceChar raw) as (name & pieces & Hsplit & Hclean & Hshape).
  unfold spaceChar in Hsplit. rewrite Hsplit. now split.
Qed.

(** X26. After the port effect the selected port is empty when no port is
    listed and otherwise names a listed port; running the effect again
    changes nothing. *)
Theorem port_selection_names_listed_port
    (filteredPorts : list string) (selectedPort : string) :
  (filteredPorts = [] -> portEffect filteredPorts selectedPort = EmptyString) /\
  (filteredPorts <> [] ->
   In (portEffect filteredPorts selectedPort) (map parsePortName filteredPorts)) /\
  portEffect filteredPorts (portEffect filteredPorts selectedPort)
  = portEffect filteredPorts selectedPort.
Proof.
  destruct filteredPorts as [| first rest]; [now repeat split |].
  assert (In (portEffect (first :: rest) selectedPort)
             (map parsePortName (first :: rest))) as Hin.
  { unfold portEffect.
    destruct (existsb _ (first :: rest)) eqn:E; [| now left].
    apply existsb_exists in E as (port & Hport & Heq).
    apply String.eqb_eq in Heq. subst selectedPort. now apply in_map. }
  split; [discriminate |]. split; [intros _; exact Hin |].
  set (chosen := portEffect (first :: rest) selectedPort) in *.
  unfold portEffect at 1.
  replace (existsb (fun port => String.eqb (parsePortName port) chosen)
                   (first :: rest)) with true; [reflexivity |].
  symmetry. apply existsb_exists.
  apply in_map_iff in Hin as (port & Heq & Hport).
  exists port. split; [exact Hport | now apply String.eqb_eq].
Qed.

(** X27. The baud effect leaves a configuration with a standard baud rate
    as it is and sets any other baud rate to 115200, the other fields
    staying as they are; so afterwards the baud rate is one of the standard
    rates, and running the effect again changes nothing. *)
Theorem baud_is_normalized (config : SerialConfig) :
  (In (baud config) STANDARD_BAUD_RATES -> baudEffect config = config) /\
  (~ In (baud config) STANDARD_BAUD_RATES ->
   baudEffect config
   = {| baud := 115200; dataBits := dataBits config; parity := parity config;
        stopBits := stopBits config; flow := flow config;
        append := append config |}) /\
  In (baud (baudEffect config)) STANDARD_BAUD_RATES /\
  baudEffect (baudEffect config) = baudEffect config.
Proof.
  unfold baudEffect.
  destruct (existsb (Z.eqb (baud config)) STANDARD_BAUD_RATES) eqn:E.
  - assert (In (baud config) STANDARD_BAUD_RATES) as Hin.
    { apply existsb_exists in E as (rate & Hrate & Heq).
      apply Z.eqb_eq in Heq. now rewrite Heq. }
    rewrite E. split; [reflexivity |]. split; [intros H; now destruct H |].
    now split.
  - split; [| split; [reflexivity |]].
    + intros Hin. assert (existsb (Z.eqb (baud config)) STANDARD_BAUD_RATES = true)
        as E' by (apply existsb_exists; exists (baud config);
                  split; [exact Hin | apply Z.eqb_refl]).
      congruence.
    + cbn [baud]. split; [| reflexivity].
      unfold STANDARD_BAUD_RATES. do 10 right. now left.
Qed.

End SerialPanelProperties.

Lemma port_selection_names_listed_port_witness :
  In (SerialPanel.portEffect ["COM3 USB Serial"; "COM7 Bluetooth"] "COM9")
     (map SerialPanel.parsePortName ["COM3 USB Serial"; "COM7 Bluetooth"]) /\
  SerialPanel.portEffect ["COM3 USB Serial"; "COM7 Bluetooth"] "COM9" = "COM3".
Proof.
  split; [| reflexivity].
  apply port_selection_names_listed_port. discriminate.
Defined.

Lemma baud_is_normalized_witness :
  SerialPanel.baudEffect
    {| SerialPanel.baud := 12345; SerialPanel.dataBits := 7;
       SerialPanel.parity := "even"; SerialPanel.stopBits := 2;
       SerialPanel.flow := "hardware"; SerialPanel.append := "crlf" |}
  = {| SerialPanel.baud := 115200; SerialPanel.dataBits := 7;
       SerialPanel.parity := "even"; SerialPanel.stopBits := 2;
       SerialPanel.flow := "hardware"; SerialPanel.append := "crlf" |} /\
  SerialPanel.baudEffect
    {| SerialPanel.baud := 9600; SerialPanel.dataBits := 7;
       SerialPanel.parity := "even"; SerialPanel.stopBits := 2;
       SerialPanel.flow := "hardware"; SerialPanel.append := "crlf" |}
  = {| SerialPanel.baud := 9600; SerialPanel.dataBits := 7;
       SerialPanel.parity := "even"; SerialPanel.stopBits := 2;
       SerialPanel.flow := "hardware"; SerialPanel.append := "crlf" |}.
Proof.
  split.
  - destruct (baud_is_normalized
                {| SerialPanel.baud := 12345; SerialPanel.dataBits := 7;
                   SerialPanel.parity := "even"; SerialPanel.stopBits := 2;
                   SerialPanel.flow := "hardware"; SerialPanel.append := "crlf" |})
      as (_ & H & _).
    apply H. unfold STANDARD_BAUD_RATES. simpl. intuition discriminate.
  - destruct (baud_is_normalized
                {| SerialPanel.baud := 9600; SerialPanel.dataBits := 7;
                   SerialPanel.parity := "even"; SerialPanel.stopBits := 2;
                   SerialPanel.flow := "hardware"; SerialPanel.append := "crlf" |})
      as (H & _).
    apply H. unfold STANDARD_BAUD_RATES. simpl. do 6 right. now left.
Defined.
